(** * flask-servicelayer: the directory service, its cache and [Pagination]

    A shallow embedding of [flask_servicelayer/__init__.py]:
    - the Python values the module computes with: unbounded integers,
      binary64 floats (the standard library's [SpecFloat]), lists and
      their slices, dictionaries of keyword arguments in call order;
    - the object mapper behind the services, which is a library outside
      the module: records, attribute access and a store with a journal of
      the requests that reach it;
    - [BaseService._isinstance] and [_preprocess_params], the methods of
      [LDAPOMService] and of [LDAPOMCachedService], and [save] and
      [delete] of [SQLAlchemyService];
    - [Pagination] with [pages], [has_prev], [has_next] and [iter_pages].

    A method is a function from the state it can mutate to a result, or a
    raised exception, and the state it leaves. *)

From Stdlib Require Import ZArith Lia.
From Stdlib.Floats Require Import SpecFloat.
From stdpp Require Import base option list gmap strings pretty sorting.

Local Open Scope Z_scope.

(** ** Python runtime *)

(** The exceptions the module raises or lets through. [HTTPNotFound] is
    what [flask.abort(404)] raises ([werkzeug.exceptions.NotFound]);
    [NoResultFound] is the mapper's own miss. *)
Inductive exn : Type :=
  | ValueError
  | NotImplementedError
  | HTTPNotFound
  | NoResultFound
  | AttributeError
  | IndexError
  | OverflowError
  | ZeroDivisionError
  | Exception.

#[global] Instance exn_eq_dec : EqDecision exn.
Proof. solve_decision. Defined.

(** A call either returns a value or raises. *)
Inductive result (A : Type) : Type :=
  | Ok (a : A)
  | Raise (e : exn).
Arguments Ok {A} a.
Arguments Raise {A} e.

#[global] Instance result_ret : MRet result := fun _ a => Ok a.
#[global] Instance result_bind : MBind result := fun _ _ k r =>
  match r with
  | Ok a => k a
  | Raise e => Raise e
  end.

(** A method call on an object whose mutable state is [S]: the state
    reached is kept also when the call raises, as in Python. *)
Definition M (S A : Type) : Type := S -> result A * S.

#[global] Instance M_ret {S} : MRet (M S) := fun _ a s => (Ok a, s).
#[global] Instance M_bind {S} : MBind (M S) := fun _ _ k m s =>
  match m s with
  | (Ok a, s') => k a s'
  | (Raise e, s') => (Raise e, s')
  end.

Definition raise {S A} (e : exn) : M S A := fun s => (Raise e, s).
Definition gets {S A} (f : S -> A) : M S A := fun s => (Ok (f s), s).
Definition modify {S} (f : S -> S) : M S unit := fun s => (Ok tt, f s).
Definition lift {S A} (r : result A) : M S A := fun s => (r, s).

(** [len]. *)
Definition len {A} (l : list A) : Z := Z.of_nat (length l).

(** [range(lo, hi)]. *)
Definition range (lo hi : Z) : list Z :=
  map (fun i => lo + Z.of_nat i) (seq 0 (Z.to_nat (hi - lo))).

(** Slice bounds as [PySlice_AdjustIndices] clamps them for step 1: a
    negative bound counts from the end, and both ends saturate. *)
Definition adjust_index (n i : Z) : Z :=
  let i' := if i <? 0 then i + n else i in
  if i' <? 0 then 0 else if n <? i' then n else i'.

(** [l[lo:hi]]. *)
Definition py_slice {A} (l : list A) (lo hi : Z) : list A :=
  let n := len l in
  let a := adjust_index n lo in
  let b := adjust_index n hi in
  take (Z.to_nat (b - a)) (drop (Z.to_nat a) l).

(** *** binary64 *)

Definition prec : Z := 53.
Definition emax : Z := 1024.

(** [float(n)] for an integer [n]: round to nearest, ties to even;
    [OverflowError] when the result is not finite. *)
Definition float_of_int (n : Z) : result spec_float :=
  match binary_normalize prec emax n 0 false with
  | S754_infinity _ => Raise OverflowError
  | f => Ok f
  end.

Definition is_zero (x : spec_float) : bool :=
  match x with S754_zero _ => true | _ => false end.

(** [x / y] on floats. *)
Definition float_truediv (x y : spec_float) : result spec_float :=
  if is_zero y then Raise ZeroDivisionError else Ok (SFdiv prec emax x y).

(** [n / y] for an integer [n] and a float [y]: [n] is converted first. *)
Definition int_truediv_float (n : Z) (y : spec_float) : result spec_float :=
  x ← float_of_int n; float_truediv x y.

(** [math.ceil(x)]: an exact integer. *)
Definition ceil (x : spec_float) : result Z :=
  match x with
  | S754_zero _ => Ok 0
  | S754_infinity _ => Raise OverflowError
  | S754_nan => Raise ValueError
  | S754_finite s m e =>
      let v := if s then Z.neg m else Z.pos m in
      Ok (match e with
          | Z.neg k => - ((- v) / 2 ^ Z.pos k)
          | _ => v * 2 ^ e
          end)
  end.

(** ** Pagination *)

Module Pagination.

Section Items.
Context {A : Type}.

Record t : Type := Pagination {
  page : Z;
  per_page : Z;
  total : Z;
  items : list A
}.

(** [int(ceil(self.total / float(self.per_page)))] *)
Definition pages (self : t) : result Z :=
  d ← float_of_int (per_page self);
  q ← int_truediv_float (total self) d;
  ceil q.

Definition has_prev (self : t) : bool := 1 <? page self.

Definition has_next (self : t) : result bool :=
  n ← pages self; Ok (page self <? n).

(** The test in the loop body of [iter_pages], on [num]. *)
Definition shown (cur npages left_edge left_current right_current
                  right_edge num : Z) : bool :=
  (num <=? left_edge)
  || ((cur - left_current - 1 <? num) && (num <? cur + right_current))
  || (npages - right_edge <? num).

(** The loop of [iter_pages] over the numbers still to visit; [last] is
    the loop's variable of that name, [None] is the yielded [None]. *)
Fixpoint iter_loop (cur npages left_edge left_current right_current
                    right_edge : Z) (nums : list Z) (last : Z)
  : list (option Z) :=
  match nums with
  | [] => []
  | num :: rest =>
      if shown cur npages left_edge left_current right_current
               right_edge num
      then (if last + 1 =? num then [] else [None])
             ++ Some num
             :: iter_loop cur npages left_edge left_current
                  right_current right_edge rest num
      else iter_loop cur npages left_edge left_current right_current
             right_edge rest last
  end.

(** [iter_pages]: everything the generator yields, in order. *)
Definition iter_pages (self : t) (left_edge left_current right_current
                                  right_edge : Z)
  : result (list (option Z)) :=
  n ← pages self;
  Ok (iter_loop (page self) n left_edge left_current right_current
        right_edge (range 1 (n + 1)) 0).

End Items.
Arguments t : clear implicits.

End Pagination.

(** ** Records and keyword arguments *)

(** Attribute values; [VStr EmptyString] is Python's ['']. *)
Inductive value : Type :=
  | VStr (s : string)
  | VInt (n : Z).

#[global] Instance value_eq_dec : EqDecision value.
Proof. solve_decision. Defined.

(** [str(v)], as [%s] formats it. *)
Definition str (v : value) : string :=
  match v with
  | VStr s => s
  | VInt n => pretty n
  end.

(** [**kwargs]: a dictionary in insertion order, which for keyword
    arguments is the order of the call; its keys are distinct. *)
Definition kwargs : Type := list (string * value).

(** [d.pop(k, None)], for its effect on [d]. *)
Definition dict_pop (k : string) (d : kwargs) : kwargs :=
  filter (λ kv, kv.1 ≠ k) d.

(** An instance of a mapped class: its class, its identifier (what [get]
    is called with and what [e.id] reads) and its attributes. Objects are
    values here: the identity of Python objects is not modelled. The
    identifier is kept apart from the attributes: what assigning to an
    attribute named [id] does to it is not modelled. *)
Record obj : Type := Obj {
  cls : string;
  id : string;
  attrs : gmap string value
}.

#[global] Instance obj_eq_dec : EqDecision obj.
Proof. solve_decision. Defined.

(** [setattr(o, k, v)]. *)
Definition setattr (o : obj) (k : string) (v : value) : result obj :=
  Ok (Obj (cls o) (id o) (<[k := v]> (attrs o))).

(** [delattr(o, k)], as the mapped classes answer it: the attribute is
    gone afterwards, and deleting one the object does not carry is not an
    error. *)
Definition delattr (o : obj) (k : string) : result obj :=
  Ok (Obj (cls o) (id o) (delete k (attrs o))).

(** ** The record store behind a service

    The object mappers ([ldapom_model], SQLAlchemy) are libraries outside
    the repository. A store is modelled by the entries it holds, in the
    order it enumerates them, and by a journal of the requests that
    reached it; the journal is what "invoking the backend" means below. *)
Inductive request : Type :=
  | Search (kw : kwargs)
  | Retrieve (i : string)
  | Persist (i : string)
  | Remove (i : string).

#[global] Instance request_eq_dec : EqDecision request.
Proof. solve_decision. Defined.

Record store : Type := Store {
  entries : list obj;
  journal : list request
}.

Definition record (q : request) : M store unit :=
  modify (λ s, Store (entries s) (journal s ++ [q])).

(** Exact match on every criterion. *)
Definition matches (kw : kwargs) (o : obj) : Prop :=
  Forall (λ kv, attrs o !! kv.1 = Some kv.2) kw.

#[global] Instance matches_dec kw o : Decision (matches kw o).
Proof. unfold matches. apply _. Defined.

Definition lookup_id (model i : string) (es : list obj) : option obj :=
  snd <$> list_find (λ o, cls o = model ∧ id o = i) es.

(** [Model.search(conn, **kw)] *)
Definition search (model : string) (kw : kwargs) : M store (list obj) :=
  record (Search kw);;
  gets (λ s, filter (λ o, cls o = model ∧ matches kw o) (entries s)).

(** [Model.retrieve(conn, i)]: raises [NoResultFound] on a miss. Entries
    are found by class and identifier; a directory in which two entries
    carry one identifier is outside this model (see [distinct_ids]). *)
Definition retrieve (model i : string) : M store obj :=
  record (Retrieve i);;
  r ← gets (λ s, lookup_id model i (entries s));
  match r with
  | Some o => mret o
  | None => raise NoResultFound
  end.

(** The entry of that identifier is replaced, or the object is added at
    the end. An object stands for the entry of its identifier: this is
    the mapper's behaviour where identifiers are distinct. *)
Definition write (o : obj) (es : list obj) : list obj :=
  if bool_decide (id o ∈ id <$> es)
  then (λ e, if bool_decide (id e = id o) then o else e) <$> es
  else es ++ [o].

(** [o.save()], and [session.add(o); session.commit()]. *)
Definition obj_save (o : obj) : M store unit :=
  record (Persist (id o));;
  modify (λ s, Store (write o (entries s)) (journal s)).

(** [o.delete()], and [session.delete(o); session.commit()]. *)
Definition obj_delete (o : obj) : M store unit :=
  record (Remove (id o));;
  modify (λ s, Store (filter (λ e, id e ≠ id o) (entries s)) (journal s)).

(** ** Services *)

(** What a method reaches through [self], for a service whose mutable
    state is [S]: [LDAPOMCachedService] overrides these three, and the
    methods it inherits call the overriding ones. *)
Class Service (S : Type) : Type := {
  self_all : M S (list obj);
  self_get : string → M S obj;
  self_find : kwargs → M S (list obj)
}.

Module BaseService.

(** [_isinstance(obj, raise_error)] for a service whose [__model__] is
    [model]; a class is an instance of itself only. *)
Definition _isinstance (model : string) (o : obj) (raise_error : bool)
  : result bool :=
  let rv := bool_decide (cls o = model) in
  if negb rv && raise_error then Raise ValueError else Ok rv.

Definition _preprocess_params (kw : kwargs) : kwargs :=
  dict_pop "submit" (dict_pop "csrf_token" kw).

End BaseService.

Module SQLAlchemyService.

Section Model.
Variable model : string.

Definition save (o : obj) : M store obj :=
  _ ← lift (BaseService._isinstance model o true);
  obj_save o;;
  mret o.

Definition delete (o : obj) : M store unit :=
  _ ← lift (BaseService._isinstance model o true);
  obj_delete o.

(** The loop of [update]. *)
Fixpoint assign (o : obj) (kw : kwargs) : result obj :=
  match kw with
  | [] => Ok o
  | (k, v) :: rest => o' ← setattr o k v; assign o' rest
  end.

Definition update (o : obj) (kw : kwargs) : M store obj :=
  _ ← lift (BaseService._isinstance model o true);
  o' ← lift (assign o (BaseService._preprocess_params kw));
  save o';;
  mret o'.

End Model.

End SQLAlchemyService.

Module LDAPOMService.

(** [_compute_dn(kwargs)] for a model whose [_rdn] is [rdn], on a
    connection whose [_base] is [base]; [None] is the [KeyError] of
    [kwargs[rdn]]. *)
Definition _compute_dn (rdn base : string) (kw : kwargs) : option string :=
  kv ← list_find (λ kv, kv.1 = rdn) kw;
  Some (rdn +:+ "=" +:+ str kv.2.2 +:+ "," +:+ base).

Section Model.
Variable model : string.

Definition save (o : obj) : M store obj :=
  obj_save o;;
  mret o.

Definition all : M store (list obj) := search model [].

Definition get (i : string) : M store obj := retrieve model i.

Definition find (kw : kwargs) : M store (list obj) := search model kw.

Definition _preprocess_params (kw : kwargs) : kwargs :=
  filter (λ kv, kv.2 ≠ VStr "") (BaseService._preprocess_params kw).

(** The first loop of [update]. *)
Fixpoint del_empty (o : obj) (kw : kwargs) : result obj :=
  match kw with
  | [] => Ok o
  | (k, v) :: rest =>
      if bool_decide (v = VStr "")
      then o' ← delattr o k; del_empty o' rest
      else del_empty o rest
  end.

(** The second loop of [update]. *)
Fixpoint set_all (o : obj) (kw : kwargs) : result obj :=
  match kw with
  | [] => Ok o
  | (k, v) :: rest => o' ← setattr o k v; set_all o' rest
  end.

(** [update(obj, **kwargs)]. The object travels by value: what a raise
    leaves of a half-updated object is not modelled. *)
Definition update (o : obj) (kw : kwargs) : M store obj :=
  _ ← lift (BaseService._isinstance model o true);
  o1 ← lift (del_empty o kw);
  o2 ← lift (set_all o1 (_preprocess_params kw));
  save o2;;
  mret o2.

Definition delete (o : obj) : M store unit := obj_delete o.

(** The methods below are written against [self], so that the cached
    service inherits them with its own [all], [get] and [find]. *)
Section Inherited.
Context {S : Type} (self : Service S).

Definition get_or_404 (i : string) : M S obj :=
  λ s, match self_get i s with
       | (Raise NoResultFound, s') => (Raise HTTPNotFound, s')
       | r => r
       end.

Definition get_all (ids : list string) : M S (list obj) :=
  mapM self_get ids.

Definition first (kw : kwargs) : M S obj :=
  res ← self_find kw;
  match res with
  | o :: _ => mret o
  | [] => raise HTTPNotFound
  end.

Definition one (kw : kwargs) : M S obj :=
  res ← self_find kw;
  match res with
  | [] => raise Exception
  | [o] => mret o
  | _ => raise Exception
  end.

Definition paginate (page per_page : Z) (order_by : option string)
    (desc : bool) (filter_by : kwargs) (error_out : bool)
  : M S (Pagination.t obj) :=
  match filter_by with
  | _ :: _ => raise NotImplementedError
  | [] =>
      objects ← self_all;
      let total := len objects in
      if error_out && ((page - 1) * per_page <? total)
      then raise HTTPNotFound
      else mret (Pagination.Pagination page per_page total
                   (py_slice objects ((page - 1) * per_page)
                      (page * per_page)))
  end.

End Inherited.

Definition service : Service store :=
  {| self_all := all; self_get := get; self_find := find |}.

End Model.

End LDAPOMService.

Module LDAPOMCachedService.

Record t : Type := Cached {
  ldap : store;
  _all_cache : option (list obj);
  _get_cache : gmap string obj;
  _find_cache : gmap Z (list obj)
}.

(** [__init__] over a connection. *)
Definition init (c : store) : t := Cached c None ∅ ∅.

(** A call of a [super()] method: it runs on the connection. *)
Definition super {A} (m : M store A) : M t A :=
  λ s, let '(r, c) := m (ldap s) in
       (r, Cached c (_all_cache s) (_get_cache s) (_find_cache s)).

(** The loop of [all] over the listing: [self._get_cache[e.id] = e]. *)
Definition populate (g : gmap string obj) (l : list obj) : gmap string obj :=
  foldl (λ g e, <[id e := e]> g) g l.

Section Model.
Variable model : string.
(** The builtin [hash], on the tuple of the items of a [kwargs]. *)
Variable hash : kwargs → Z.

Definition all : M t (list obj) :=
  cache ← gets _all_cache;
  listing ← match cache with
            | None =>
                l ← super (LDAPOMService.all model);
                modify (λ s, Cached (ldap s) (Some l) (_get_cache s)
                               (_find_cache s));;
                mret l
            | Some l => mret l
            end;
  modify (λ s, Cached (ldap s) (_all_cache s)
                 (populate (_get_cache s) listing) (_find_cache s));;
  mret listing.

Definition get (i : string) : M t obj :=
  g ← gets _get_cache;
  match g !! i with
  | Some o => mret o
  | None =>
      o ← super (LDAPOMService.get model i);
      modify (λ s, Cached (ldap s) (_all_cache s) (<[i := o]> (_get_cache s))
                     (_find_cache s));;
      mret o
  end.

Definition find (kw : kwargs) : M t (list obj) :=
  let h := hash kw in
  f ← gets _find_cache;
  match f !! h with
  | Some l => mret l
  | None =>
      l ← super (LDAPOMService.find model kw);
      modify (λ s, Cached (ldap s) (_all_cache s) (_get_cache s)
                     (<[h := l]> (_find_cache s)));;
      mret l
  end.

Definition service : Service t :=
  {| self_all := all; self_get := get; self_find := find |}.

End Model.

(** [save] and [delete] are inherited from [LDAPOMService]: they run on
    the connection and touch no cache. *)
Definition save (o : obj) : M t obj := super (LDAPOMService.save o).

Definition delete (o : obj) : M t unit := super (LDAPOMService.delete o).

End LDAPOMCachedService.

(** ** Vocabulary of the statements *)

(** The slice [paginate] takes for [page]. *)
Definition page_items {A} (l : list A) (page per_page : Z) : list A :=
  py_slice l ((page - 1) * per_page) (page * per_page).

(** The records of [model] that match the criteria. *)
Definition matching (model : string) (kw : kwargs) (s : store) : list obj :=
  filter (λ o, cls o = model ∧ matches kw o) (entries s).

(** What the directory lists for [model]. *)
Definition listing (model : string) (s : store) : list obj :=
  filter (λ o, cls o = model ∧ matches [] o) (entries s).

(** No two entries of the directory carry one identifier: the directories
    on which [retrieve], [write] and [obj_delete] act as the mapper does. *)
Definition distinct_ids (s : store) : Prop := NoDup (id <$> entries s).

(** A directory of [n] persons, for the scenarios. *)
Definition person (i : nat) : obj :=
  Obj "person" (pretty i) {[ "shell" := VStr "/bin/bash" ]}.

Definition people (n : nat) : store := Store (person <$> seq 0 n) [].

Definition jack : obj :=
  Obj "person" "jack"
    {[ "shell" := VStr "/bin/bash"; "phone" := VStr "42" ]}.

(** A record of another mapped class. *)
Definition admins : obj := Obj "group" "admins" ∅.

(** A hash that, like the builtin on a tuple, depends on the positions of
    the items; it stands for the builtin where a concrete one is needed. *)
Definition item_code (kv : string * value) : Z :=
  Z.of_nat (String.length kv.1)
  + match kv.2 with
    | VInt n => n
    | VStr s => Z.of_nat (String.length s)
    end.

Definition positional_hash (kw : kwargs) : Z :=
  foldl (λ h kv, 31 * h + item_code kv) 7 kw.

(** The listing [l] is cached, and so is a record of [l] for each of its
    identifiers. *)
Definition populated (l : list obj) (s : LDAPOMCachedService.t) : Prop :=
  LDAPOMCachedService._all_cache s = Some l
  ∧ ∀ i, i ∈ id <$> l →
      ∃ e, LDAPOMCachedService._get_cache s !! i = Some e ∧ e ∈ l ∧ id e = i.

(** The number yielded last in [pre], and [d] when there is none. *)
Definition last_number_from (d : Z) (pre : list (option Z)) : Z :=
  default d (last (omap (λ x, x) pre)).

(** Numbers in a row, with a gap marker before each one that does not
    follow the number before it ([lst] before the first). *)
Fixpoint with_gaps (lst : Z) (q : list Z) : list (option Z) :=
  match q with
  | [] => []
  | k :: q' => (if lst + 1 =? k then [] else [None]) ++ Some k :: with_gaps k q'
  end.

(** The criteria of [find(a=1, b=2)] and of [find(b=2, a=1)]. *)
Definition a1_b2 : kwargs := [("a", VInt 1); ("b", VInt 2)].
Definition b2_a1 : kwargs := [("b", VInt 2); ("a", VInt 1)].

(** Sequences of reads on the cached service. *)
Inductive read : Type :=
  | RAll
  | RGet (i : string)
  | RFind (kw : kwargs).

Section Reads.
Variable model : string.
Variable hash : kwargs → Z.

(** The state after one read, whether it returned or raised. *)
Definition exec (r : read) (s : LDAPOMCachedService.t)
  : LDAPOMCachedService.t :=
  match r with
  | RAll => (LDAPOMCachedService.all model s).2
  | RGet i => (LDAPOMCachedService.get model i s).2
  | RFind kw => (LDAPOMCachedService.find model hash kw s).2
  end.

Definition run (rs : list read) (s : LDAPOMCachedService.t)
  : LDAPOMCachedService.t :=
  foldl (λ s r, exec r s) s rs.

(** How many requests a call added to the journal. *)
Definition requests (s s' : LDAPOMCachedService.t) : nat :=
  (length (journal (LDAPOMCachedService.ldap s'))
   - length (journal (LDAPOMCachedService.ldap s)))%nat.

(** The requests that the [all()] calls of a sequence of reads add. *)
Fixpoint fetches_by_all (rs : list read) (s : LDAPOMCachedService.t) : nat :=
  match rs with
  | [] => 0
  | RAll :: rs' =>
      (requests s (exec RAll s) + fetches_by_all rs' (exec RAll s))%nat
  | r :: rs' => fetches_by_all rs' (exec r s)
  end.

(** What the [all()] calls of a sequence of reads return. *)
Fixpoint all_results (rs : list read) (s : LDAPOMCachedService.t)
  : list (result (list obj)) :=
  match rs with
  | [] => []
  | RAll :: rs' =>
      (LDAPOMCachedService.all model s).1 :: all_results rs' (exec RAll s)
  | r :: rs' => all_results rs' (exec r s)
  end.

End Reads.

(** The steps of binary64 rounding, for the arithmetic of [pages]. *)

(** The second half of [binary_round_aux]: a rounded mantissa of 53 digits
    is kept, and [2^53] is renormalized. *)
Definition pack (j e : Z) : spec_float :=
  if j =? 2 ^ 53 then S754_finite false (2 ^ 52)%positive (e + 1)
  else S754_finite false (Z.to_pos j) e.

(** A record shifted right by one digit: the digit lost and whether
    anything was inexact before. *)
Definition halved (q : Z) (l : location) : shr_record :=
  Build_shr_record (q / 2) (Z.odd q)
    (match l with loc_Exact => false | _ => true end).

(** Integer ceiling of a quotient. *)
Definition cdiv (a b : Z) : Z := - ((- a) / b).

(** * Properties *)

Import Pagination.

(** ** Slices and pages of a listing *)

Section Slices.
Context {A : Type}.
Implicit Types (l : list A) (page per_page : Z).

Lemma adjust_index_nonneg n i : 0 <= n -> 0 <= i -> adjust_index n i = Z.min i n.
Proof.
  intros Hn Hi. unfold adjust_index.
  destruct (Z.ltb_spec i 0); [lia|].
  destruct (Z.ltb_spec i 0); [lia|].
  destruct (Z.ltb_spec n i); lia.
Qed.

Lemma py_slice_nonneg l lo hi :
  0 <= lo -> 0 <= hi ->
  py_slice l lo hi = take (Z.to_nat hi - Z.to_nat lo) (drop (Z.to_nat lo) l).
Proof.
  intros Hlo Hhi. unfold py_slice, len.
  rewrite !adjust_index_nonneg by lia.
  destruct (Z.le_gt_cases lo (Z.of_nat (length l))) as [Hle|Hgt].
  - rewrite (Z.min_l lo) by lia.
    destruct (Z.le_gt_cases hi (Z.of_nat (length l))).
    + rewrite Z.min_l by lia. f_equal. lia.
    + rewrite Z.min_r by lia.
      rewrite !take_ge; [done| |]; rewrite length_drop; lia.
  - rewrite (Z.min_r lo) by lia.
    rewrite !drop_ge by lia. by rewrite !take_nil.
Qed.

Lemma page_items_length l page per_page :
  1 <= page -> 0 <= per_page ->
  len (page_items l page per_page) <= per_page.
Proof.
  intros Hp Hpp. unfold page_items, len.
  rewrite py_slice_nonneg by nia.
  rewrite length_take. nia.
Qed.

Lemma page_items_beyond l page per_page :
  1 <= page -> 0 <= per_page -> len l <= (page - 1) * per_page ->
  page_items l page per_page = [].
Proof.
  intros Hp Hpp Hlen. unfold page_items, len in *.
  rewrite py_slice_nonneg by nia.
  rewrite drop_ge by lia. apply take_nil.
Qed.

(** Pages [1..n] put end to end are the first [n * per_page] items. *)
Lemma concat_pages l per_page (n : nat) :
  0 <= per_page ->
  concat (map (λ k, page_items l k per_page) (range 1 (Z.of_nat n + 1)))
  = take (Z.to_nat (Z.of_nat n * per_page)) l.
Proof.
  intros Hpp. unfold range.
  replace (Z.to_nat (Z.of_nat n + 1 - 1)) with n by lia.
  induction n as [|n IH].
  - simpl. by rewrite take_0.
  - rewrite seq_S, !map_app, concat_app, IH. simpl.
    rewrite app_nil_r. unfold page_items.
    rewrite py_slice_nonneg by nia.
    replace (1 + Z.of_nat n - 1) with (Z.of_nat n) by lia.
    replace ((1 + Z.of_nat n) * per_page) with (Z.of_nat (S n) * per_page) by lia.
    set (a := Z.to_nat (Z.of_nat n * per_page)).
    set (b := Z.to_nat (Z.of_nat (S n) * per_page)).
    assert (a ≤ b)%nat by (subst a b; nia).
    rewrite <- (take_drop a (take b l)) at 1.
    rewrite take_take, Nat.min_l by lia.
    by rewrite skipn_firstn_comm.
Qed.

End Slices.

(** ** [paginate] on the directory service *)

Section Paginate.
Variable model : string.
Implicit Types (s : store) (page per_page : Z).

Local Notation "'paginate'" :=
  (LDAPOMService.paginate (LDAPOMService.service model)).

(** Without a filter, [paginate] is one search followed by the test on
    [error_out] and the slice. *)
Lemma paginate_unfiltered page per_page order_by desc error_out s :
  paginate page per_page order_by desc [] error_out s
  = (if error_out && ((page - 1) * per_page <? len (listing model s))
     then Raise HTTPNotFound
     else Ok (Pagination page per_page (len (listing model s))
                (page_items (listing model s) page per_page)),
     Store (entries s) (journal s ++ [Search []])).
Proof.
  unfold LDAPOMService.paginate, mbind, M_bind. simpl.
  by destruct (error_out && _).
Qed.

(** With [error_out], the call aborts exactly when the first offset of the
    page lies inside the listing. *)
Lemma paginate_aborts_iff page per_page order_by desc s :
  (paginate page per_page order_by desc [] true s).1 = Raise HTTPNotFound
  ↔ (page - 1) * per_page < len (listing model s).
Proof.
  rewrite paginate_unfiltered. simpl.
  destruct (Z.ltb_spec ((page - 1) * per_page) (len (listing model s)));
    simpl; split; (done || lia).
Qed.

(** Without [error_out], every page is the slice of the listing. *)
Lemma paginate_no_error_out page per_page order_by desc s :
  (paginate page per_page order_by desc [] false s).1
  = Ok (Pagination page per_page (len (listing model s))
          (page_items (listing model s) page per_page)).
Proof. by rewrite paginate_unfiltered. Qed.

(** Concatenating the pages [1..n] of a listing of at most [n * per_page]
    records gives the listing back, in order. *)
Lemma paginate_pages_cover per_page order_by desc s (n : nat) :
  0 <= per_page → len (listing model s) <= Z.of_nat n * per_page →
  ∃ ps : list (Pagination.t obj),
    Forall2 (λ k p, (paginate k per_page order_by desc [] false s).1 = Ok p)
      (range 1 (Z.of_nat n + 1)) ps
    ∧ Forall (λ p, len (items p) <= per_page) ps
    ∧ concat (items <$> ps) = listing model s.
Proof.
  intros Hpp Hn.
  exists ((λ k, Pagination k per_page (len (listing model s))
                  (page_items (listing model s) k per_page))
            <$> range 1 (Z.of_nat n + 1)).
  split; [|split].
  - apply Forall2_fmap_r, Forall_Forall2_diag, Forall_forall.
    intros k _. apply paginate_no_error_out.
  - apply Forall_fmap, Forall_forall. intros k Hk. simpl.
    apply page_items_length; [|done].
    unfold range in Hk. apply list_elem_of_fmap in Hk as (i & -> & _). lia.
  - rewrite <- list_fmap_compose.
    change (items ∘ _) with (λ k, page_items (listing model s) k per_page).
    rewrite concat_pages by done.
    apply take_ge. unfold len in Hn. lia.
Qed.

End Paginate.

(** C7: whatever the other arguments and whichever service is behind
    [self], a non-empty [filter_by] makes [paginate] raise
    [NotImplementedError] and leaves the state as it was: nothing was
    fetched. *)
Theorem paginate_rejects_filter {S} (self : Service S) page per_page order_by
    desc filter_by error_out (s : S) :
  filter_by ≠ [] →
  LDAPOMService.paginate self page per_page order_by desc filter_by
    error_out s
  = (Raise NotImplementedError, s).
Proof. intros Hne. by destruct filter_by. Qed.

Lemma paginate_rejects_filter_witness :
  [("shell", VStr "/bin/bash")] ≠ []
  ∧ LDAPOMService.paginate (LDAPOMService.service "person") 1 10 None false
      [("shell", VStr "/bin/bash")] true (people 23)
    = (Raise NotImplementedError, people 23).
Proof.
  split; [done|].
  apply (paginate_rejects_filter (LDAPOMService.service "person")). done.
Defined.

(** C1, on the code: with [error_out], page 5 of 23 records at 10 a page
    is returned, empty, where not-found is due; and page 1, which has
    items, is refused. *)
Theorem paginate_error_out_inverted :
  (LDAPOMService.paginate (LDAPOMService.service "person") 5 10 None false
     [] true (people 23)).1
  = Ok (Pagination 5 10 23 [])
  ∧ (LDAPOMService.paginate (LDAPOMService.service "person") 1 10 None false
       [] true (people 23)).1
    = Raise HTTPNotFound.
Proof. split; vm_compute; reflexivity. Qed.

(** C2, on the code: with the default [error_out], page 3 of 23 records at
    10 a page is refused instead of returned with its 3 items. *)
Theorem paginate_page3_of_23_refused :
  (LDAPOMService.paginate (LDAPOMService.service "person") 3 10 None false
     [] true (people 23)).1
  = Raise HTTPNotFound.
Proof. vm_compute. reflexivity. Qed.

(** The scenario of page 3 as it goes when [error_out] is off. *)
Lemma paginate_page3_of_23_no_error_out :
  ∃ p, (LDAPOMService.paginate (LDAPOMService.service "person") 3 10 None
          false [] false (people 23)).1 = Ok p
       ∧ items p = [person 20; person 21; person 22]
       ∧ pages p = Ok 3 ∧ has_next p = Ok false ∧ has_prev p = true.
Proof. eexists. split; [vm_compute; reflexivity|]. by vm_compute. Qed.

(** ** Reads of the directory service *)

Section Directory.
Variable model : string.
Implicit Types (s : store) (i : string) (o : obj).

Lemma get_run i s :
  LDAPOMService.get model i s
  = (match lookup_id model i (entries s) with
     | Some o => Ok o
     | None => Raise NoResultFound
     end,
     Store (entries s) (journal s ++ [Retrieve i])).
Proof.
  unfold LDAPOMService.get, retrieve, mbind, M_bind. simpl.
  by destruct (lookup_id model i (entries s)).
Qed.

Lemma lookup_id_Some i es o :
  lookup_id model i es = Some o → o ∈ es ∧ cls o = model ∧ id o = i.
Proof.
  unfold lookup_id. intros H.
  apply fmap_Some in H as ([k o'] & Hf & ->).
  apply list_find_Some in Hf as (Hk & [? ?] & _). simpl.
  split; [by eapply list_elem_of_lookup_2|done].
Qed.

(** [get_all] stops at the first identifier that is missing; the entries
    are only read, and the journal tells which identifiers were asked. *)
Lemma get_all_run ids s :
  ∃ n : nat,
    LDAPOMService.get_all (LDAPOMService.service model) ids s
    = (match mapM (λ i, lookup_id model i (entries s)) ids with
       | Some rs => Ok rs
       | None => Raise NoResultFound
       end,
       Store (entries s) (journal s ++ (Retrieve <$> take n ids)))
    ∧ (is_Some (mapM (λ i, lookup_id model i (entries s)) ids)
       → n = length ids).
Proof.
  unfold LDAPOMService.get_all. revert s.
  induction ids as [|i ids IH]; intros s.
  - exists 0%nat. simpl. rewrite app_nil_r. by destruct s.
  - cbn [mapM]. unfold mbind at 1, M_bind at 1.
    change (self_get i s) with (LDAPOMService.get model i s).
    rewrite get_run.
    destruct (lookup_id model i (entries s)) as [o|] eqn:Hi.
    + destruct (IH (Store (entries s) (journal s ++ [Retrieve i])))
        as (n & Hrun & Hn).
      simpl in Hn. exists (S n). unfold mbind at 1, M_bind at 1.
      rewrite Hrun. simpl.
      destruct (mapM (λ i, lookup_id model i (entries s)) ids) as [rs|];
        simpl;
        rewrite <- app_assoc; (split; [reflexivity|]); intros Hs.
      * f_equal. apply Hn. by eexists.
      * by destruct Hs.
    + exists 1%nat. simpl. rewrite ?take_0.
      split; [done|]. by intros [? ?].
Qed.

End Directory.

(** C10: [get_all] returns the records of the given identifiers, one for
    each and in their order, each fetched by one [get]; when one of the
    identifiers has no record the whole call raises what [get] raises. *)
Theorem get_all_one_per_id model (ids : list string) (s : store) :
  let r := LDAPOMService.get_all (LDAPOMService.service model) ids s in
  (∀ rs, r.1 = Ok rs
         ↔ Forall2 (λ i o, (LDAPOMService.get model i s).1 = Ok o) ids rs)
  ∧ (∀ rs, r.1 = Ok rs →
       length rs = length ids ∧ id <$> rs = ids
       ∧ journal r.2 = journal s ++ (Retrieve <$> ids))
  ∧ ((∃ i, i ∈ ids ∧ (LDAPOMService.get model i s).1 = Raise NoResultFound)
     → r.1 = Raise NoResultFound)
  ∧ entries r.2 = entries s.
Proof.
  intros r. subst r.
  destruct (get_all_run model ids s) as (n & -> & Hn). simpl.
  assert (Hget : ∀ i o, (LDAPOMService.get model i s).1 = Ok o
                        ↔ lookup_id model i (entries s) = Some o).
  { intros i o. rewrite get_run. simpl.
    destruct (lookup_id model i (entries s)); split; congruence. }
  assert (Hmiss : ∀ i, (LDAPOMService.get model i s).1 = Raise NoResultFound
                        ↔ lookup_id model i (entries s) = None).
  { intros i. rewrite get_run. simpl.
    destruct (lookup_id model i (entries s)); split; congruence. }
  assert (Hall : ∀ rs, Forall2 (λ i o,
                         (LDAPOMService.get model i s).1 = Ok o) ids rs
                       ↔ mapM (λ i, lookup_id model i (entries s)) ids
                         = Some rs).
  { intros rs. rewrite mapM_Some. split; intros HF;
      (eapply Forall2_impl; [exact HF|]); intros i o Hio; by apply Hget. }
  destruct (mapM (λ i, lookup_id model i (entries s)) ids) as [rs|] eqn:Hm.
  - assert (n = length ids) as -> by (apply Hn; by eexists).
    rewrite take_ge by lia.
    split; [|split; [|split]]; try done.
    + intros rs'. rewrite Hall. split; congruence.
    + intros rs' [= <-]. apply mapM_Some in Hm.
      split; [symmetry; by eapply Forall2_length|]. split; [|done].
      clear Hn Hall. induction Hm as [|i o ids rs Hio _ IH]; [done|].
      simpl. f_equal; [|done]. by apply lookup_id_Some in Hio as (_ & _ & ?).
    + intros (i & Hin & Hi). apply Hmiss in Hi. apply mapM_Some in Hm.
      apply Forall2_Forall_l
        with (Q := λ i, is_Some (lookup_id model i (entries s))) in Hm.
      * rewrite Forall_forall in Hm. destruct (Hm i Hin) as [? ?]. congruence.
      * apply Forall_forall. eauto.
  - split; [|split; [|split]]; try done.
    intros rs'. rewrite Hall. split; congruence.
Qed.

(** ** Writes *)

Lemma write_lookup model o es :
  cls o = model → lookup_id model (id o) (write o es) = Some o.
Proof.
  intros Hcls.
  assert (Hin : o ∈ write o es).
  { unfold write. case_bool_decide as Hid.
    - apply list_elem_of_fmap in Hid as (e & He & Hin).
      apply list_elem_of_fmap. exists e. split; [|done].
      by rewrite bool_decide_true.
    - apply elem_of_app. right. by apply list_elem_of_singleton. }
  assert (Huniq : ∀ e, e ∈ write o es → id e = id o → e = o).
  { intros e He Hid. unfold write in He. case_bool_decide as Hmem.
    - apply list_elem_of_fmap in He as (e' & -> & _).
      destruct (decide (id e' = id o)) as [Heq|Hne].
      + by rewrite bool_decide_true.
      + rewrite bool_decide_false in Hid by done. done.
    - apply elem_of_app in He as [He|He].
      + destruct Hmem. rewrite <- Hid. by apply list_elem_of_fmap_2.
      + by apply list_elem_of_singleton in He. }
  unfold lookup_id.
  destruct (list_find_elem_of (λ e, cls e = model ∧ id e = id o)
              (write o es) o Hin) as [[k e] Hf]; [done|].
  rewrite Hf. simpl. f_equal.
  apply list_find_Some in Hf as (Hk & [_ Hid] & _).
  apply Huniq; [|done]. by eapply list_elem_of_lookup_2.
Qed.



Lemma kwargs_functional (kw : kwargs) k v v' :
  NoDup kw.*1 → (k, v) ∈ kw → (k, v') ∈ kw → v = v'.
Proof.
  induction kw as [|[k0 v0] kw IH]; simpl; intros Hnd Hv Hv'.
  - by apply elem_of_nil in Hv.
  - apply NoDup_cons in Hnd as [Hk0 Hnd].
    apply elem_of_cons in Hv as [[= -> ->]|Hv];
      apply elem_of_cons in Hv' as [[= ?]|Hv']; subst; auto.
    + destruct Hk0. by apply (list_elem_of_fmap_2 fst _ (k0, v')).
    + destruct Hk0. by apply (list_elem_of_fmap_2 fst _ (k0, v)).
Qed.



Lemma preprocess_elem_of (kw : kwargs) k v :
  (k, v) ∈ LDAPOMService._preprocess_params kw
  ↔ (k, v) ∈ kw ∧ v ≠ VStr "" ∧ k ≠ "csrf_token" ∧ k ≠ "submit".
Proof.
  unfold LDAPOMService._preprocess_params, BaseService._preprocess_params,
    dict_pop.
  rewrite !list_elem_of_filter. simpl. tauto.
Qed.




(** ** The type check of [save] and [delete] *)

(** [SQLAlchemyService] checks the class first and leaves the session
    alone on a mismatch; so does [update] of the directory service. *)
Lemma sqlalchemy_rejects_foreign model (o : obj) (s : store) :
  cls o ≠ model →
  SQLAlchemyService.save model o s = (Raise ValueError, s)
  ∧ SQLAlchemyService.delete model o s = (Raise ValueError, s).
Proof.
  intros Hne.
  unfold SQLAlchemyService.save, SQLAlchemyService.delete,
    BaseService._isinstance, mbind, M_bind, lift.
  by rewrite bool_decide_false.
Qed.

Lemma ldap_update_rejects_foreign model (o : obj) (kw : kwargs) (s : store) :
  cls o ≠ model → LDAPOMService.update model o kw s = (Raise ValueError, s).
Proof.
  intros Hne.
  unfold LDAPOMService.update, BaseService._isinstance, mbind, M_bind, lift.
  by rewrite bool_decide_false.
Qed.

(** [save] and [delete] of the directory service never look at the class. *)
Lemma ldap_save_delete_run (o : obj) (s : store) :
  LDAPOMService.save o s
  = (Ok o, Store (write o (entries s)) (journal s ++ [Persist (id o)]))
  ∧ LDAPOMService.delete o s
    = (Ok (), Store (filter (λ e, id e ≠ id o) (entries s))
                (journal s ++ [Remove (id o)])).
Proof. done. Qed.

(** C9, on the code: handed a record of another class, [save] and
    [delete] of the directory service write it to, and remove it from, the
    directory without raising, where those of [SQLAlchemyService] raise
    [ValueError] and leave the store as it was. *)
Theorem ldap_save_delete_skip_type_check :
  cls admins ≠ "person"
  ∧ LDAPOMService.save admins (Store [jack] [])
    = (Ok admins, Store [jack; admins] [Persist "admins"])
  ∧ LDAPOMService.delete admins (Store [jack; admins] [])
    = (Ok (), Store [jack] [Remove "admins"])
  ∧ SQLAlchemyService.save "person" admins (Store [jack] [])
    = (Raise ValueError, Store [jack] [])
  ∧ SQLAlchemyService.delete "person" admins (Store [jack; admins] [])
    = (Raise ValueError, Store [jack; admins] []).
Proof. repeat split; done. Qed.

(** ** The cached service *)

Section Cached.
Variable model : string.
Variable hash : kwargs → Z.
Implicit Types (s : LDAPOMCachedService.t) (l : list obj) (i : string).

Import LDAPOMCachedService.

Local Notation "'all'" := (LDAPOMCachedService.all model).
Local Notation "'get'" := (LDAPOMCachedService.get model).
Local Notation "'find'" := (LDAPOMCachedService.find model hash).

Lemma all_run s :
  all s
  = match _all_cache s with
    | Some l =>
        (Ok l, Cached (ldap s) (Some l) (populate (_get_cache s) l)
                 (_find_cache s))
    | None =>
        (Ok (listing model (ldap s)),
         Cached (Store (entries (ldap s)) (journal (ldap s) ++ [Search []]))
           (Some (listing model (ldap s)))
           (populate (_get_cache s) (listing model (ldap s)))
           (_find_cache s))
    end.
Proof.
  unfold LDAPOMCachedService.all, mbind, M_bind, gets. simpl.
  destruct (_all_cache s) as [l|] eqn:Hc; simpl; rewrite ?Hc; reflexivity.
Qed.

Lemma get_run_cached s i :
  get i s
  = match _get_cache s !! i with
    | Some o => (Ok o, s)
    | None =>
        let c := Store (entries (ldap s)) (journal (ldap s) ++ [Retrieve i]) in
        match lookup_id model i (entries (ldap s)) with
        | Some o =>
            (Ok o, Cached c (_all_cache s) (<[i := o]> (_get_cache s))
                     (_find_cache s))
        | None =>
            (Raise NoResultFound,
             Cached c (_all_cache s) (_get_cache s) (_find_cache s))
        end
    end.
Proof.
  unfold LDAPOMCachedService.get, mbind, M_bind, gets, super. simpl.
  destruct (_get_cache s !! i); [done|].
  rewrite get_run. by destruct (lookup_id model i (entries (ldap s))).
Qed.

Lemma find_run s kw :
  find kw s
  = match _find_cache s !! hash kw with
    | Some l => (Ok l, s)
    | None =>
        let l := filter (λ o, cls o = model ∧ matches kw o)
                   (entries (ldap s)) in
        (Ok l,
         Cached (Store (entries (ldap s)) (journal (ldap s) ++ [Search kw]))
           (_all_cache s) (_get_cache s) (<[hash kw := l]> (_find_cache s)))
    end.
Proof.
  unfold LDAPOMCachedService.find, mbind, M_bind, gets, super. simpl.
  by destruct (_find_cache s !! hash kw).
Qed.

Lemma populate_snoc g l e :
  populate g (l ++ [e]) = <[id e := e]> (populate g l).
Proof. unfold populate. by rewrite foldl_app. Qed.

Lemma populate_lookup g l i :
  i ∈ id <$> l → ∃ e, populate g l !! i = Some e ∧ e ∈ l ∧ id e = i.
Proof.
  induction l as [|e l IH] using rev_ind; intros Hi.
  - by apply elem_of_nil in Hi.
  - rewrite populate_snoc. destruct (decide (id e = i)) as [<-|Hne].
    + exists e. rewrite lookup_insert_eq. split; [done|]. split; [|done].
      apply elem_of_app. right. by apply list_elem_of_singleton.
    + rewrite fmap_app in Hi. apply elem_of_app in Hi as [Hi|Hi].
      * destruct (IH Hi) as (e' & Hl & Hin & Hid). exists e'.
        rewrite lookup_insert_ne by done. split; [done|]. split; [|done].
        apply elem_of_app. by left.
      * apply list_elem_of_singleton in Hi. by destruct Hne.
Qed.

Lemma all_populates s :
  ∃ l, (all s).1 = Ok l ∧ populated l (all s).2
       ∧ (requests s (all s).2 ≤ 1)%nat.
Proof.
  rewrite all_run. unfold requests.
  destruct (_all_cache s) as [l|]; simpl.
  - exists l. repeat split; [|lia]. intros i Hi. by apply populate_lookup.
  - eexists. repeat split.
    + intros i Hi. by apply populate_lookup.
    + rewrite length_app. simpl. lia.
Qed.

Lemma populated_all l s :
  populated l s → (all s).1 = Ok l ∧ ldap (all s).2 = ldap s
                  ∧ populated l (all s).2.
Proof.
  intros [Hc Hg]. rewrite all_run, Hc. simpl. repeat split.
  intros i Hi. by apply populate_lookup.
Qed.

Lemma populated_get l s i :
  populated l s → i ∈ id <$> l →
  ∃ e, get i s = (Ok e, s) ∧ e ∈ l ∧ id e = i.
Proof.
  intros [_ Hg] Hi. destruct (Hg i Hi) as (e & Hl & Hin & Hid).
  exists e. by rewrite get_run_cached, Hl.
Qed.

Lemma populated_exec l r s : populated l s → populated l (exec model hash r s).
Proof.
  intros Hp. destruct r as [|i|kw]; simpl.
  - by apply populated_all.
  - destruct Hp as [Hc Hg]. rewrite get_run_cached.
    destruct (_get_cache s !! i) as [o|] eqn:Hi; [done|]. simpl.
    destruct (lookup_id model i (entries (ldap s))); split; try done.
    simpl. intros j Hj. destruct (Hg j Hj) as (e & Hl & ?).
    exists e. split; [|done]. rewrite lookup_insert_ne; [done|congruence].
  - destruct Hp as [Hc Hg]. rewrite find_run.
    by destruct (_find_cache s !! hash kw).
Qed.

Lemma populated_run l rs s : populated l s → populated l (run model hash rs s).
Proof.
  revert s. induction rs as [|r rs IH]; intros s Hp; [done|].
  simpl. by apply IH, populated_exec.
Qed.

Lemma populated_quiet l rs s :
  populated l s →
  fetches_by_all model hash rs s = 0%nat
  ∧ Forall (λ r, r = Ok l) (all_results model hash rs s).
Proof.
  revert s. induction rs as [|r rs IH]; intros s Hp; [done|].
  destruct (IH _ (populated_exec l r s Hp)) as [Hf Ha].
  destruct r; simpl; try done.
  destruct (populated_all l s Hp) as (Hr & Hl & _).
  simpl in Hf. rewrite Hf. unfold requests. rewrite Hl. split; [lia|].
  by constructor.
Qed.

End Cached.

(** C4: in any sequence of reads, from any state of the cached service,
    the [all()] calls together send at most one request, and they all
    return the same listing; and once [all()] has returned a listing,
    whatever reads follow, [get] of an identifier of the listing returns a
    record of the listing with that identifier and leaves the state,
    journal included, as it was. *)
Theorem cached_all_coherent model hash (rs : list read)
    (s : LDAPOMCachedService.t) :
  (fetches_by_all model hash rs s ≤ 1)%nat
  ∧ (∃ l, Forall (λ r, r = Ok l) (all_results model hash rs s))
  ∧ ∃ l, (LDAPOMCachedService.all model s).1 = Ok l
         ∧ ∀ e, e ∈ l →
             let s' := run model hash rs (LDAPOMCachedService.all model s).2 in
             ∃ e', LDAPOMCachedService.get model (id e) s' = (Ok e', s')
                   ∧ e' ∈ l ∧ id e' = id e.
Proof.
  split; [|split].
  - revert s. induction rs as [|r rs IH]; intros s; [simpl; lia|].
    destruct r; simpl; try apply IH.
    destruct (all_populates model s) as (l & _ & Hp & Hle).
    destruct (populated_quiet model hash l rs _ Hp) as [-> _]. lia.
  - revert s. induction rs as [|r rs IH]; intros s; [by exists []|].
    destruct r; simpl; try apply IH.
    destruct (all_populates model s) as (l & Hl & Hp & _).
    exists l. constructor; [done|].
    by apply (populated_quiet model hash l rs).
  - destruct (all_populates model s) as (l & Hl & Hp & _).
    exists l. split; [done|]. intros e He s'.
    apply (populated_get model l); [by apply populated_run|].
    by apply list_elem_of_fmap_2.
Qed.

Section Find.
Variable model : string.
Variable hash : kwargs → Z.
Implicit Types (s : LDAPOMCachedService.t) (l : list obj).

Import LDAPOMCachedService.

Lemma find_cache_exec r s h l :
  _find_cache s !! h = Some l → _find_cache (exec model hash r s) !! h = Some l.
Proof.
  intros Hh. destruct r as [|i|kw]; simpl.
  - rewrite all_run. by destruct (_all_cache s).
  - rewrite get_run_cached. destruct (_get_cache s !! i); [done|]. simpl.
    by destruct (lookup_id model i (entries (ldap s))).
  - rewrite find_run. destruct (_find_cache s !! hash kw) eqn:Hkw; [done|].
    simpl. rewrite lookup_insert_ne; [done|congruence].
Qed.

Lemma find_cache_run rs s h l :
  _find_cache s !! h = Some l → _find_cache (run model hash rs s) !! h = Some l.
Proof.
  revert s. induction rs as [|r rs IH]; intros s Hh; [done|].
  simpl. by apply IH, find_cache_exec.
Qed.

(** Two criteria that hash apart do not share an entry: from a fresh cache
    the second [find] asks the directory again. *)
Lemma find_miss_when_hashes_differ (c : store) (kw1 kw2 : kwargs) :
  hash kw1 ≠ hash kw2 →
  journal (ldap (LDAPOMCachedService.find model hash kw2
                   (LDAPOMCachedService.find model hash kw1 (init c)).2).2)
  = journal c ++ [Search kw1; Search kw2].
Proof.
  intros Hne.
  assert (H1 : LDAPOMCachedService.find model hash kw1 (init c)
               = (Ok (filter (λ o, cls o = model ∧ matches kw1 o) (entries c)),
                  Cached (Store (entries c) (journal c ++ [Search kw1])) None ∅
                    (<[hash kw1 :=
                         filter (λ o, cls o = model ∧ matches kw1 o)
                           (entries c)]> ∅))).
  { rewrite find_run. simpl. by rewrite lookup_empty. }
  rewrite H1, find_run. simpl.
  rewrite lookup_insert_ne, lookup_empty by done. simpl.
  by rewrite <- app_assoc.
Qed.

End Find.

(** C3, as the code has it: a [find] with the criteria of an earlier
    [find], given in the same order, returns what the earlier call
    returned and leaves the state, journal included, as it was, whatever
    reads came in between. *)
Theorem find_same_criteria_hits model hash (kw : kwargs) (rs : list read)
    (s : LDAPOMCachedService.t) :
  ∃ l, (LDAPOMCachedService.find model hash kw s).1 = Ok l
       ∧ let s' := run model hash rs
                     (LDAPOMCachedService.find model hash kw s).2 in
         LDAPOMCachedService.find model hash kw s' = (Ok l, s').
Proof.
  assert (∃ l, (LDAPOMCachedService.find model hash kw s).1 = Ok l
               ∧ LDAPOMCachedService._find_cache
                   (LDAPOMCachedService.find model hash kw s).2 !! hash kw
                 = Some l) as (l & Hl & Hc).
  { rewrite find_run.
    destruct (LDAPOMCachedService._find_cache s !! hash kw) as [l|] eqn:Hkw;
      simpl; eexists; (split; [done|]); [done|].
    apply lookup_insert_eq. }
  exists l. split; [done|]. intros s'.
  rewrite find_run. subst s'.
  by rewrite (find_cache_run model hash rs _ _ l Hc).
Qed.

(** C3, as stated, fails: the criteria of [find(a=1, b=2)] and of
    [find(b=2, a=1)] are the same pairs, and after the first call on a
    fresh cache the second one still sends its own search. *)
Lemma find_reordered_criteria_miss :
  a1_b2 ≡ₚ b2_a1
  ∧ journal (LDAPOMCachedService.ldap
               (LDAPOMCachedService.find "person" positional_hash a1_b2
                  (LDAPOMCachedService.init (people 2))).2)
    = [Search a1_b2]
  ∧ journal (LDAPOMCachedService.ldap
               (LDAPOMCachedService.find "person" positional_hash b2_a1
                  (LDAPOMCachedService.find "person" positional_hash a1_b2
                     (LDAPOMCachedService.init (people 2))).2).2)
    = [Search a1_b2; Search b2_a1].
Proof.
  split; [apply Permutation_swap|]. split; [done|].
  by apply (find_miss_when_hashes_differ "person" positional_hash (people 2)).
Qed.

(** ** The loop of [iter_pages] *)

Section IterPages.
Implicit Types (out pre post : list (option Z)) (q : list Z).

Lemma last_skip (x y : option Z) pre :
  last (x :: y :: pre) = last (y :: pre).
Proof. done. Qed.

Lemma last_number_cons k pre :
  last (Some k :: pre) = Some None ↔ last pre = Some None.
Proof. destruct pre as [|y pre]; [done|]. by rewrite last_skip. Qed.

Lemma last_after_number (x : option Z) k pre :
  last (x :: Some k :: pre) = Some None ↔ last pre = Some None.
Proof. rewrite last_skip. apply last_number_cons. Qed.

Lemma last_number_from_gap d pre :
  last_number_from d (None :: pre) = last_number_from d pre.
Proof. done. Qed.

Lemma last_number_from_number d k pre :
  last_number_from d (Some k :: pre) = last_number_from k pre.
Proof.
  unfold last_number_from.
  change (omap (λ x, x) (Some k :: pre)) with (k :: omap (λ x, x) pre).
  destruct (omap (λ x : option Z, x) pre) as [|y l]; [done|].
  change (last (k :: y :: l)) with (last (y :: l)).
  by destruct (last (y :: l)) eqn:Hlast; [|by apply last_None in Hlast].
Qed.

Lemma iter_loop_with_gaps cur n le lc rc re nums lst :
  iter_loop cur n le lc rc re nums lst
  = with_gaps lst (filter (λ k, shown cur n le lc rc re k = true) nums).
Proof.
  revert lst. induction nums as [|k nums IH]; intros lst; [done|].
  simpl. rewrite filter_cons.
  destruct (shown cur n le lc rc re k) eqn:Hk.
  - rewrite decide_True by done. simpl. by rewrite IH.
  - rewrite decide_False by done. apply IH.
Qed.

Lemma with_gaps_numbers q lst k : Some k ∈ with_gaps lst q ↔ k ∈ q.
Proof.
  revert lst. induction q as [|k0 q IH]; intros lst; simpl.
  - by rewrite !elem_of_nil.
  - rewrite elem_of_app, !elem_of_cons, IH.
    destruct (lst + 1 =? k0);
      [rewrite elem_of_nil|rewrite list_elem_of_singleton];
      intuition congruence.
Qed.

Lemma with_gaps_gap_iff q lst pre k post :
  with_gaps lst q = pre ++ Some k :: post →
  last pre = Some None ↔ k ≠ last_number_from lst pre + 1.
Proof.
  revert lst pre. induction q as [|k0 q IH]; intros lst pre Hout; simpl in Hout.
  { by destruct pre. }
  destruct (Z.eqb_spec (lst + 1) k0) as [Heq|Hne]; simpl in Hout.
  - destruct pre as [|x pre]; simpl in Hout; simplify_eq.
    + unfold last_number_from. simpl. split; [done|lia].
    + rewrite last_number_from_number, last_number_cons. by apply IH.
  - destruct pre as [|x [|y pre]]; simpl in Hout; simplify_eq.
    + unfold last_number_from. simpl. split; [lia|done].
    + rewrite last_number_from_gap, last_number_from_number.
      rewrite last_after_number. by apply IH.
Qed.

Lemma with_gaps_gap_then_number q lst pre post :
  with_gaps lst q = pre ++ None :: post → ∃ k post', post = Some k :: post'.
Proof.
  revert lst pre. induction q as [|k0 q IH]; intros lst pre Hout; simpl in Hout.
  { by destruct pre. }
  destruct (lst + 1 =? k0); simpl in Hout.
  - destruct pre as [|x pre]; simplify_eq/=. by eapply IH.
  - destruct pre as [|x [|y pre]]; simplify_eq/=; [by eauto|by eapply IH].
Qed.

Lemma elem_of_range lo hi k : k ∈ range lo hi ↔ lo <= k < hi.
Proof.
  unfold range. rewrite list_elem_of_fmap. split.
  - intros (i & -> & Hi). apply elem_of_seq in Hi. lia.
  - intros Hk. exists (Z.to_nat (k - lo)). split; [lia|].
    apply elem_of_seq. lia.
Qed.

Lemma shown_iff cur n le lc rc re k :
  shown cur n le lc rc re k = true
  ↔ k <= le ∨ n - k < re ∨ cur - lc - 1 < k < cur + rc.
Proof.
  unfold shown. rewrite !orb_true_iff, andb_true_iff.
  rewrite Z.leb_le, !Z.ltb_lt. lia.
Qed.

End IterPages.

(** ** binary64: the arithmetic of [pages] *)

Lemma digits2_pos_size p : digits2_pos p = Pos.size p.
Proof. induction p; simpl; congruence. Qed.

Lemma digits2_pos_bounds p :
  2 ^ (Z.pos (digits2_pos p) - 1) <= Z.pos p < 2 ^ Z.pos (digits2_pos p).
Proof.
  induction p as [p IH|p IH|]; simpl digits2_pos.
  - rewrite Pos2Z.inj_succ.
    replace (Z.succ (Z.pos (digits2_pos p)) - 1) with (Z.pos (digits2_pos p)) by lia.
    rewrite Z.pow_succ_r by lia.
    assert (2 ^ Z.pos (digits2_pos p) = 2 * 2 ^ (Z.pos (digits2_pos p) - 1)).
    { rewrite <- Z.pow_succ_r by lia. f_equal. lia. }
    lia.
  - rewrite Pos2Z.inj_succ.
    replace (Z.succ (Z.pos (digits2_pos p)) - 1) with (Z.pos (digits2_pos p)) by lia.
    rewrite Z.pow_succ_r by lia.
    assert (2 ^ Z.pos (digits2_pos p) = 2 * 2 ^ (Z.pos (digits2_pos p) - 1)).
    { rewrite <- Z.pow_succ_r by lia. f_equal. lia. }
    lia.
  - simpl. lia.
Qed.

Lemma digits2_pos_unique p d :
  2 ^ (d - 1) <= Z.pos p < 2 ^ d → Z.pos (digits2_pos p) = d.
Proof.
  intros [Hlo Hhi]. pose proof (digits2_pos_bounds p) as [Hlo' Hhi'].
  assert (0 < d).
  { destruct (Z.lt_ge_cases 0 d); [done|].
    assert (2 ^ d <= 2 ^ 0) by (apply Z.pow_le_mono_r; lia). simpl in *. lia. }
  destruct (Z.lt_trichotomy (Z.pos (digits2_pos p)) d) as [Hlt|[?|Hgt]]; [|done|].
  - assert (2 ^ Z.pos (digits2_pos p) <= 2 ^ (d - 1))
      by (apply Z.pow_le_mono_r; lia). lia.
  - assert (2 ^ d <= 2 ^ (Z.pos (digits2_pos p) - 1))
      by (apply Z.pow_le_mono_r; lia). lia.
Qed.

Lemma fexp_normal e : -1074 <= e - 53 → fexp prec emax e = e - 53.
Proof. intros. unfold fexp, emin, prec, emax. lia. Qed.

Lemma loc_of_record_of m l : loc_of_shr_record (shr_record_of_loc m l) = l.
Proof. by destruct l as [|[]]. Qed.

Lemma shr_m_record_of m l : shr_m (shr_record_of_loc m l) = m.
Proof. by destruct l as [|[]]. Qed.

(** No shift when the mantissa has 53 digits. *)
Lemma shr_fexp_53 q e l :
  2 ^ 52 <= Z.pos q < 2 ^ 53 → -1074 <= e →
  shr_fexp prec emax (Z.pos q) e l = (shr_record_of_loc (Z.pos q) l, e).
Proof.
  intros Hq He. unfold shr_fexp. simpl Zdigits2.
  rewrite (digits2_pos_unique q 53) by done.
  rewrite fexp_normal by lia.
  replace (53 + e - 53 - e) with 0 by lia. done.
Qed.

(** One shift when it has 54. *)
Lemma shr_fexp_54 q e l :
  2 ^ 53 <= Z.pos q < 2 ^ 54 → -1074 <= e →
  shr_fexp prec emax (Z.pos q) e l
  = (shr_1 (shr_record_of_loc (Z.pos q) l), e + 1).
Proof.
  intros Hq He. unfold shr_fexp. simpl Zdigits2.
  rewrite (digits2_pos_unique q 54) by done.
  rewrite fexp_normal by lia.
  replace (54 + e - 53 - e) with 1 by lia. done.
Qed.

Lemma round_aux_tail j e :
  2 ^ 52 <= j <= 2 ^ 53 → -1074 <= e <= 970 →
  (let '(mrs, e') := shr_fexp prec emax j e loc_Exact in
   match shr_m mrs with
   | Z0 => S754_zero false
   | Z.pos m => if e' <=? emax - prec then S754_finite false m e'
                else S754_infinity false
   | Z.neg _ => S754_nan
   end) = pack j e.
Proof.
  intros Hj He. unfold pack.
  destruct (Z.eqb_spec j (2 ^ 53)) as [->|Hne].
  - rewrite (shr_fexp_54 (2 ^ 53)%positive) by (simpl; lia).
    simpl shr_m. cbv iota.
    destruct (Z.leb_spec (e + 1) (emax - prec)); [done|].
    unfold emax, prec in *. lia.
  - destruct j as [|jp|jp]; [lia| |lia].
    rewrite shr_fexp_53 by lia. simpl shr_m.
    destruct (Z.leb_spec e (emax - prec)); [done|].
    unfold emax, prec in *. lia.
Qed.

Lemma rne_bounds m l :
  m <= round_nearest_even m l <= m + 1.
Proof. destruct l as [|[]]; simpl; try lia. destruct (Z.even m); lia. Qed.

Lemma round_aux_53 q e l :
  2 ^ 52 <= Z.pos q < 2 ^ 53 → -1074 <= e <= 970 →
  binary_round_aux prec emax false (Z.pos q) e l
  = pack (round_nearest_even (Z.pos q) l) e.
Proof.
  intros Hq He. unfold binary_round_aux.
  rewrite shr_fexp_53 by lia.
  rewrite loc_of_record_of, shr_m_record_of.
  apply round_aux_tail; [|done].
  pose proof (rne_bounds (Z.pos q) l). lia.
Qed.

Lemma shr_1_record_of q l :
  shr_1 (shr_record_of_loc (Z.pos q) l) = halved (Z.pos q) l.
Proof.
  unfold halved.
  destruct q as [p|p|]; destruct l as [|[]]; simpl; f_equal;
    try done;
    first [ rewrite Pos2Z.inj_xI; apply Z.div_unique with (r := 1); lia
          | rewrite Pos2Z.inj_xO; apply Z.div_unique with (r := 0); lia ].
Qed.

Lemma round_aux_54 q e l :
  2 ^ 53 <= Z.pos q < 2 ^ 54 → -1074 <= e <= 969 →
  binary_round_aux prec emax false (Z.pos q) e l
  = pack (round_nearest_even (Z.pos q / 2)
            (loc_of_shr_record (halved (Z.pos q) l))) (e + 1).
Proof.
  intros Hq He. unfold binary_round_aux.
  rewrite shr_fexp_54 by lia.
  rewrite shr_1_record_of.
  change (shr_m (halved (Z.pos q) l)) with (Z.pos q / 2).
  apply round_aux_tail; [|lia].
  pose proof (rne_bounds (Z.pos q / 2) (loc_of_shr_record (halved (Z.pos q) l))).
  assert (2 ^ 52 <= Z.pos q / 2 < 2 ^ 53).
  { split; [apply Z.div_le_lower_bound; lia|apply Z.div_lt_upper_bound; lia]. }
  lia.
Qed.

Lemma cdiv_unique a b k : 0 < b → (k - 1) * b < a <= k * b → cdiv a b = k.
Proof.
  intros Hb Hk. unfold cdiv.
  assert (- k = - a / b); [|lia].
  apply Z.div_unique with (r := k * b - a); lia.
Qed.

Lemma cdiv_bounds a b : 0 < b → (cdiv a b - 1) * b < a <= cdiv a b * b.
Proof.
  intros Hb. unfold cdiv.
  pose proof (Z.div_mod (- a) b ltac:(lia)).
  pose proof (Z.mod_pos_bound (- a) b Hb). nia.
Qed.

(** A quotient within half a step [1/(2W)] of [T/P], on a grid finer than
    [1/P], has the ceiling of [T/P]. *)
Lemma cdiv_close j W T P :
  0 < W → 0 < P → P < 2 * W →
  Z.abs (2 * j * P - 2 * W * T) <= P →
  cdiv j W = cdiv T P.
Proof.
  intros HW HP HPW Hclose.
  pose proof (cdiv_bounds T P HP) as [Hlo Hhi].
  apply cdiv_unique; [done|].
  set (K := cdiv T P) in *. split.
  - assert (2 * W * ((K - 1) * P + 1) <= 2 * W * T) by nia.
    assert (2 * (K - 1) * W * P < 2 * j * P) by nia.
    nia.
  - assert (2 * j * P <= 2 * W * K * P + P) by nia.
    assert (2 * j <= 2 * W * K + 1) by nia.
    lia.
Qed.

Lemma new_location_spec mp r :
  0 < mp → 0 <= r < mp →
  new_location mp r
  = if r =? 0 then loc_Exact else loc_Inexact (2 * r ?= mp).
Proof.
  intros Hmp Hr. unfold new_location, new_location_even, new_location_odd.
  destruct (Z.even mp) eqn:Hev; [done|].
  destruct (r =? 0); [done|]. f_equal.
  assert (Hodd : Z.odd mp = true) by (by rewrite <- Z.negb_even, Hev).
  apply Z.odd_spec in Hodd as [h Hh].
  destruct (Z.compare_spec (2 * r + 1) mp), (Z.compare_spec (2 * r) mp);
    try done; lia.
Qed.

Lemma rne_53_close q r mp :
  0 < mp → 0 <= r < mp →
  Z.abs (2 * (round_nearest_even q (new_location mp r) - q) * mp - 2 * r)
  <= mp.
Proof.
  intros Hmp Hr. rewrite new_location_spec by done.
  destruct (Z.eqb_spec r 0) as [->|Hne]; simpl; [lia|].
  destruct (Z.compare_spec (2 * r) mp); simpl;
    [destruct (Z.even q)|..]; lia.
Qed.

Lemma rne_54_close q r mp :
  0 < mp → 0 <= r < mp →
  Z.abs (2 * round_nearest_even (q / 2)
               (loc_of_shr_record (halved q (new_location mp r))) * mp
         - q * mp - r) <= mp.
Proof.
  intros Hmp Hr. rewrite new_location_spec by done.
  pose proof (Z.div_mod q 2 ltac:(lia)) as Hq.
  pose proof (Z.mod_pos_bound q 2 ltac:(lia)) as Hb.
  rewrite (Zmod_odd q) in Hq, Hb.
  unfold halved.
  destruct (Z.eqb_spec r 0) as [->|Hne];
    [|destruct (Z.compare_spec (2 * r) mp)];
    destruct (Z.odd q); simpl; try destruct (Z.even (q / 2)); nia.
Qed.

Lemma ceil_finite m f :
  f <= 0 → ceil (S754_finite false m f) = Ok (cdiv (Z.pos m) (2 ^ (- f))).
Proof.
  intros Hf. unfold ceil, cdiv. f_equal.
  destruct f as [|k|k]; [|lia|done].
  simpl. rewrite Z.div_1_r. lia.
Qed.

Lemma ceil_pack j f :
  2 ^ 52 <= j <= 2 ^ 53 → f <= 0 → ceil (pack j f) = Ok (cdiv j (2 ^ (- f))).
Proof.
  intros Hj Hf. unfold pack.
  destruct (Z.eqb_spec j (2 ^ 53)) as [->|Hne].
  - destruct (Z.eq_dec f 0) as [->|Hf0]; [done|].
    rewrite ceil_finite by lia. f_equal. unfold cdiv. f_equal.
    replace (- f) with (Z.succ (- (f + 1))) by lia.
    rewrite Z.pow_succ_r by lia.
    change (- 2 ^ 53) with (2 * - Z.pos (2 ^ 52)).
    rewrite Z.div_mul_cancel_l; [done| |lia].
    apply Z.pow_nonzero; lia.
  - rewrite ceil_finite by done. by rewrite Z2Pos.id by lia.
Qed.

Lemma SFdiv_core_normal mt et mp ep :
  2 ^ 52 <= Z.pos mt < 2 ^ 53 → 2 ^ 52 <= Z.pos mp < 2 ^ 53 →
  -52 <= et <= 0 → -52 <= ep <= 0 →
  SFdiv_core_binary prec emax (Z.pos mt) et (Z.pos mp) ep
  = ((Z.pos mt * 2 ^ 53) / Z.pos mp, et - ep - 53,
     new_location (Z.pos mp) ((Z.pos mt * 2 ^ 53) mod Z.pos mp)).
Proof.
  intros Hmt Hmp Het Hep. unfold SFdiv_core_binary. simpl Zdigits2.
  rewrite (digits2_pos_unique mt 53), (digits2_pos_unique mp 53) by done.
  rewrite fexp_normal by lia.
  replace (53 + et - (53 + ep) - 53) with (et - ep - 53) by lia.
  rewrite Z.min_l by lia.
  replace (et - ep - (et - ep - 53)) with 53 by lia.
  rewrite Z.shiftl_mul_pow2 by lia.
  unfold Z.div, Z.modulo.
  by destruct (Z.div_eucl (Z.pos mt * 2 ^ 53) (Z.pos mp)).
Qed.


Lemma abs_le_cancel x b p : 0 < b → Z.abs (x * b) <= p * b → Z.abs x <= p.
Proof. intros Hb. rewrite Z.abs_mul, (Z.abs_eq b) by lia. nia. Qed.

(** The quotient of two 53-digit mantissas, scaled by [2^53], has 53 or 54
    digits. *)
Lemma quotient_digits c mt mp :
  0 < c → c <= 2 * mt < 2 * c → c <= 2 * mp < 2 * c →
  c <= 2 * (mt * c / mp) < 4 * c.
Proof.
  intros Hc Hmt Hmp.
  pose proof (Z.div_mod (mt * c) mp ltac:(lia)) as HN.
  pose proof (Z.mod_pos_bound (mt * c) mp ltac:(lia)) as Hr.
  set (q := mt * c / mp) in *. set (r := (mt * c) mod mp) in *.
  split.
  - nia.
  - nia.
Qed.

Lemma close_53 j q r mp P T W a2 b2 c :
  0 < b2 → mp = P * b2 → T * a2 * c = mp * q + r → W * b2 = c * a2 →
  Z.abs (2 * (j - q) * mp - 2 * r) <= mp →
  Z.abs (2 * j * P - 2 * W * T) <= P.
Proof.
  intros Hb Hmp HN HW Hclose.
  apply (abs_le_cancel _ b2); [done|].
  replace ((2 * j * P - 2 * W * T) * b2)
    with (2 * (j - q) * mp - 2 * r); [lia|].
  assert (HWT : W * T * b2 = mp * q + r).
  { rewrite <- HN. replace (W * T * b2) with (W * b2 * T) by ring.
    rewrite HW. ring. }
  subst mp. ring_simplify. ring_simplify in HWT. lia.
Qed.

Lemma close_54 j q r mp P T W a2 b2 c :
  0 < b2 → mp = P * b2 → T * a2 * c = mp * q + r → 2 * W * b2 = c * a2 →
  Z.abs (2 * j * mp - q * mp - r) <= mp →
  Z.abs (2 * j * P - 2 * W * T) <= P.
Proof.
  intros Hb Hmp HN HW Hclose.
  apply (abs_le_cancel _ b2); [done|].
  replace ((2 * j * P - 2 * W * T) * b2)
    with (2 * j * mp - q * mp - r); [lia|].
  assert (HWT : 2 * W * T * b2 = mp * q + r).
  { rewrite <- HN. replace (2 * W * T * b2) with (2 * W * b2 * T) by ring.
    rewrite HW. ring. }
  subst mp. ring_simplify. ring_simplify in HWT. lia.
Qed.

Lemma below_grid P W a2 b2 c k :
  0 < b2 → 1 <= a2 → 0 < c → P * b2 < c → k * W * b2 = c * a2 → P < k * W.
Proof. intros. nia. Qed.

Lemma ceil_div_normal T P mt mp A B :
  0 < T → 0 < P → 0 <= A <= 52 → 0 <= B <= 52 →
  Z.pos mt = T * 2 ^ A → Z.pos mp = P * 2 ^ B →
  2 ^ 52 <= Z.pos mt < 2 ^ 53 → 2 ^ 52 <= Z.pos mp < 2 ^ 53 →
  ceil (SFdiv prec emax (S754_finite false mt (- A))
          (S754_finite false mp (- B)))
  = Ok (cdiv T P).
Proof.
  intros HT HP HA HB Hmt Hmp Hmt53 Hmp53.
  unfold SFdiv. rewrite SFdiv_core_normal by lia. simpl xorb.
  pose proof (quotient_digits (2 ^ 53) (Z.pos mt) (Z.pos mp)
                ltac:(lia) ltac:(lia) ltac:(lia)) as Hq.
  pose proof (Z.div_mod (Z.pos mt * 2 ^ 53) (Z.pos mp) ltac:(lia)) as HN.
  pose proof (Z.mod_pos_bound (Z.pos mt * 2 ^ 53) (Z.pos mp) ltac:(lia)) as Hr.
  set (q := Z.pos mt * 2 ^ 53 / Z.pos mp) in *.
  set (r := (Z.pos mt * 2 ^ 53) mod Z.pos mp) in *.
  rewrite Hmt in HN.
  assert (Ha2 : 1 <= 2 ^ A)
    by (change 1 with (2 ^ 0); apply Z.pow_le_mono_r; lia).
  assert (Hb2 : 0 < 2 ^ B) by (apply Z.pow_pos_nonneg; lia).
  destruct q as [|qp|qp] eqn:Eq; [lia| |lia].
  destruct (Z.lt_ge_cases (Z.pos qp) (2 ^ 53)) as [Hlt|Hge].
  - (* 53 digits: rounded at this exponent *)
    rewrite round_aux_53 by lia.
    pose proof (rne_bounds (Z.pos qp) (new_location (Z.pos mp) r)) as Hj.
    pose proof (rne_53_close (Z.pos qp) r (Z.pos mp) ltac:(lia) Hr) as Hclose.
    set (j := round_nearest_even (Z.pos qp) (new_location (Z.pos mp) r)) in *.
    rewrite ceil_pack by lia. f_equal.
    assert (HW : 2 ^ (- (- A - - B - 53)) * 2 ^ B = 2 ^ 53 * 2 ^ A).
    { rewrite <- !Z.pow_add_r by lia. f_equal. lia. }
    assert (HW0 : 0 < 2 ^ (- (- A - - B - 53)))
      by (apply Z.pow_pos_nonneg; lia).
    set (W := 2 ^ (- (- A - - B - 53))) in *.
    apply cdiv_close; [done|done| |].
    + assert (P < 1 * W); [|lia].
      apply (below_grid P W (2 ^ A) (2 ^ B) (2 ^ 53)); lia.
    + apply (close_53 j (Z.pos qp) r (Z.pos mp) P T W (2 ^ A) (2 ^ B) (2 ^ 53));
        [done|done|done|done|done].
  - (* 54 digits: rounded one exponent higher *)
    rewrite round_aux_54 by lia.
    assert (Hq2 : 2 ^ 52 <= Z.pos qp / 2 < 2 ^ 53).
    { split; [apply Z.div_le_lower_bound; lia|apply Z.div_lt_upper_bound; lia]. }
    pose proof (rne_bounds (Z.pos qp / 2)
                  (loc_of_shr_record
                     (halved (Z.pos qp) (new_location (Z.pos mp) r)))) as Hj.
    pose proof (rne_54_close (Z.pos qp) r (Z.pos mp) ltac:(lia) Hr) as Hclose.
    set (j := round_nearest_even (Z.pos qp / 2) _) in *.
    rewrite ceil_pack by lia. f_equal.
    assert (HW : 2 * 2 ^ (- (- A - - B - 53 + 1)) * 2 ^ B = 2 ^ 53 * 2 ^ A).
    { rewrite <- Z.pow_succ_r by lia.
      rewrite <- !Z.pow_add_r by lia. f_equal. lia. }
    assert (HW0 : 0 < 2 ^ (- (- A - - B - 53 + 1)))
      by (apply Z.pow_pos_nonneg; lia).
    set (W := 2 ^ (- (- A - - B - 53 + 1))) in *.
    apply cdiv_close; [done|done| |].
    + apply (below_grid P W (2 ^ A) (2 ^ B) (2 ^ 53)); lia.
    + apply (close_54 j (Z.pos qp) r (Z.pos mp) P T W (2 ^ A) (2 ^ B) (2 ^ 53));
        [done|done|done|done|done].
Qed.

Lemma pos_iter_xO m k : Z.pos (Pos.iter xO m k) = Z.pos m * 2 ^ Z.pos k.
Proof.
  induction k as [|k IH] using Pos.peano_ind.
  - simpl. lia.
  - rewrite Pos.iter_succ, Pos2Z.inj_xO, IH, Pos2Z.inj_succ.
    rewrite Z.pow_succ_r by lia. lia.
Qed.

(** An integer below [2^53] converts exactly, to a mantissa of 53 digits. *)
Lemma float_of_int_exact T :
  0 < T < 2 ^ 53 →
  ∃ m A, float_of_int T = Ok (S754_finite false m (- A))
         ∧ 0 <= A <= 52 ∧ Z.pos m = T * 2 ^ A
         ∧ 2 ^ 52 <= Z.pos m < 2 ^ 53.
Proof.
  intros HT. destruct T as [|p|p]; [lia| |lia].
  pose proof (digits2_pos_bounds p) as Hd.
  set (d := Z.pos (digits2_pos p)) in *.
  assert (Hd53 : 1 <= d <= 53).
  { split; [subst d; lia|].
    destruct (Z.le_gt_cases d 53); [done|].
    assert (2 ^ 53 <= 2 ^ (d - 1)) by (apply Z.pow_le_mono_r; lia). lia. }
  assert (Hscaled : 2 ^ 52 <= Z.pos p * 2 ^ (53 - d) < 2 ^ 53).
  { assert (0 < 2 ^ (53 - d)) by (apply Z.pow_pos_nonneg; lia).
    assert (2 ^ (d - 1) * 2 ^ (53 - d) = 2 ^ 52)
      by (rewrite <- Z.pow_add_r by lia; f_equal; lia).
    assert (2 ^ d * 2 ^ (53 - d) = 2 ^ 53)
      by (rewrite <- Z.pow_add_r by lia; f_equal; lia).
    set (w := 2 ^ (53 - d)) in *. set (lo := 2 ^ (d - 1)) in *.
    set (hi := 2 ^ d) in *. nia. }
  unfold float_of_int, binary_normalize, binary_round, shl_align.
  fold d. rewrite fexp_normal by lia.
  destruct (d + 0 - 53 - 0) as [|k|k] eqn:Hk; [|lia|].
  - assert (d = 53) by lia.
    rewrite round_aux_53 by (replace (53 - d) with 0 in Hscaled by lia; lia).
    simpl round_nearest_even. unfold pack.
    destruct (Z.eqb_spec (Z.pos p) (2 ^ 53)); [lia|].
    exists p, 0. simpl Z.to_pos. repeat split; try lia.
    replace (53 - d) with 0 in Hscaled by lia. lia.
  - assert (Hkd : Z.pos k = 53 - d) by lia.
    assert (Hm : Z.pos (Pos.iter xO p k) = Z.pos p * 2 ^ (53 - d))
      by (by rewrite pos_iter_xO, Hkd).
    rewrite round_aux_53 by lia.
    simpl round_nearest_even. unfold pack.
    destruct (Z.eqb_spec (Z.pos (Pos.iter xO p k)) (2 ^ 53)); [lia|].
    exists (Pos.iter xO p k), (53 - d). simpl Z.to_pos.
    replace (d + 0 - 53) with (- (53 - d)) by lia.
    repeat split; try lia.
Qed.

Lemma cdiv_zero b : cdiv 0 b = 0.
Proof. unfold cdiv. simpl. by rewrite Zdiv_0_l. Qed.

(** Below [2^53] the quotient, rounded, still has the ceiling of the exact
    quotient. *)
Lemma pages_cdiv {A} (p : Pagination.t A) :
  0 <= total p < 2 ^ 53 → 0 < per_page p < 2 ^ 53 →
  pages p = Ok (cdiv (total p) (per_page p)).
Proof.
  intros HT HP. unfold pages, int_truediv_float.
  destruct (float_of_int_exact (per_page p) HP)
    as (mp & B & -> & HB & Hmp & Hmp53).
  simpl mbind. unfold mbind, result_bind.
  destruct (Z.eq_dec (total p) 0) as [->|Hne].
  - by rewrite cdiv_zero.
  - destruct (float_of_int_exact (total p) ltac:(lia))
      as (mt & A' & -> & HA & Hmt & Hmt53).
    unfold float_truediv. simpl is_zero. cbv iota.
    apply ceil_div_normal; (done || lia).
Qed.

(** C6, within the integers that binary64 holds exactly: [pages] is the
    ceiling of [total / per_page] (the [n] with
    [(n - 1) * per_page < total <= n * per_page]), [has_prev] is
    [page > 1] and [has_next] is [page < pages]. *)
Theorem pages_is_ceiling {A} (p : Pagination.t A) :
  0 <= total p < 2 ^ 53 → 0 < per_page p < 2 ^ 53 →
  ∃ n, pages p = Ok n
       ∧ (n - 1) * per_page p < total p <= n * per_page p
       ∧ has_prev p = bool_decide (1 < page p)
       ∧ has_next p = Ok (bool_decide (page p < n)).
Proof.
  intros HT HP. exists (cdiv (total p) (per_page p)).
  pose proof (pages_cdiv p HT HP) as Hpages.
  split; [done|]. split; [apply cdiv_bounds; lia|]. split.
  - unfold has_prev. by destruct (Z.ltb_spec 1 (page p));
      [rewrite bool_decide_true|rewrite bool_decide_false by lia].
  - unfold has_next. rewrite Hpages. simpl. f_equal.
    by destruct (Z.ltb_spec (page p) (cdiv (total p) (per_page p)));
      [rewrite bool_decide_true|rewrite bool_decide_false by lia].
Qed.

Lemma pages_is_ceiling_witness :
  0 <= total (Pagination 3 10 23 (@nil obj)) < 2 ^ 53
  ∧ 0 < per_page (Pagination 3 10 23 (@nil obj)) < 2 ^ 53
  ∧ pages (Pagination 3 10 23 (@nil obj)) = Ok 3
  ∧ has_prev (Pagination 3 10 23 (@nil obj)) = true
  ∧ has_next (Pagination 3 10 23 (@nil obj)) = Ok false.
Proof.
  assert (HT : 0 <= total (Pagination 3 10 23 (@nil obj)) < 2 ^ 53)
    by (simpl; lia).
  assert (HP : 0 < per_page (Pagination 3 10 23 (@nil obj)) < 2 ^ 53)
    by (simpl; lia).
  split; [exact HT|]. split; [exact HP|].
  destruct (pages_is_ceiling (Pagination 3 10 23 (@nil obj)) HT HP)
    as (n & Hn & Hceil & Hprev & Hnext).
  simpl in Hceil. assert (n = 3) as -> by lia.
  split; [exact Hn|]. split; [exact Hprev|exact Hnext].
Defined.

(** C6, as stated, fails: a total of [2^53 + 1] is rounded to [2^53]
    before the division, so that one record a page gives [2^53] pages;
    and a [per_page] too large for a float makes [pages] raise. *)
Lemma pages_beyond_binary64 :
  pages (Pagination 1 1 (2 ^ 53 + 1) (@nil obj)) = Ok (2 ^ 53)
  ∧ ¬ (2 ^ 53 + 1 <= 2 ^ 53 * 1)
  ∧ has_next (Pagination (2 ^ 53) 1 (2 ^ 53 + 1) (@nil obj)) = Ok false
  ∧ pages (Pagination 1 (2 ^ 1024) 1 (@nil obj)) = Raise OverflowError.
Proof. repeat split; try (vm_compute; reflexivity). lia. Qed.

(** Within those bounds [iter_pages] returns. *)
Lemma iter_pages_returns {A} (p : Pagination.t A)
    (left_edge left_current right_current right_edge : Z) :
  0 <= total p < 2 ^ 53 → 0 < per_page p < 2 ^ 53 →
  ∃ out,
    iter_pages p left_edge left_current right_current right_edge = Ok out.
Proof.
  intros HT HP. unfold iter_pages. rewrite (pages_cdiv p HT HP). simpl.
  by eexists.
Qed.

(** ** The page numbers of [iter_pages] *)

(** C5, where [pages] returns [n] (it does within the integers that
    binary64 holds exactly, and [n] is then the ceiling of
    [total / per_page]): [iter_pages] yields the page number [k] of [1..n]
    exactly when [k <= left_edge], or [n - k < right_edge], or
    [page - left_current - 1 < k < page + right_current], and nothing
    outside [1..n]; a yielded number comes right after a gap marker
    exactly when it is not the number yielded last (0 at the start) plus
    one; every marker is followed at once by a number; and two numbers
    with no marker between them are adjacent. Where [pages] raises,
    [iter_pages] raises the same error and yields nothing. *)
Theorem iter_pages_window {A} (p : Pagination.t A)
    (left_edge left_current right_current right_edge : Z) :
  (∀ n, pages p = Ok n →
     ∃ out,
       iter_pages p left_edge left_current right_current right_edge = Ok out
       ∧ (∀ k, Some k ∈ out ↔
               1 <= k <= n
               ∧ (k <= left_edge ∨ n - k < right_edge
                  ∨ page p - left_current - 1 < k < page p + right_current))
       ∧ (∀ pre k post, out = pre ++ Some k :: post →
            last pre = Some None ↔ k ≠ last_number_from 0 pre + 1)
       ∧ (∀ pre post, out = pre ++ None :: post →
            ∃ k post', post = Some k :: post')
       ∧ (∀ pre a b post, out = pre ++ Some a :: Some b :: post → b = a + 1))
  ∧ (∀ e, pages p = Raise e →
       iter_pages p left_edge left_current right_current right_edge = Raise e)
  ∧ (0 <= total p < 2 ^ 53 → 0 < per_page p < 2 ^ 53 →
       ∃ n, pages p = Ok n
            ∧ (n - 1) * per_page p < total p <= n * per_page p).
Proof.
  split; [|split].
  - intros n Hn. unfold iter_pages. rewrite Hn. simpl.
    eexists. split; [done|]. rewrite iter_loop_with_gaps.
    split; [|split; [|split]].
    + intros k. rewrite with_gaps_numbers, list_elem_of_filter,
        elem_of_range, shown_iff. lia.
    + intros pre k post Hout. by eapply with_gaps_gap_iff.
    + intros pre post Hout. by eapply with_gaps_gap_then_number.
    + intros pre a b post Hout.
      change (pre ++ Some a :: Some b :: post)
        with (pre ++ [Some a] ++ Some b :: post) in Hout.
      rewrite app_assoc in Hout.
      apply with_gaps_gap_iff in Hout.
      rewrite last_snoc in Hout.
      assert (Hl : last_number_from 0 (pre ++ [Some a]) = a).
      { unfold last_number_from. rewrite omap_app. simpl.
        by rewrite last_snoc. }
      rewrite Hl in Hout.
      destruct (decide (b = a + 1)) as [|Hne]; [done|].
      by apply Hout in Hne.
  - intros e He. unfold iter_pages. by rewrite He.
  - intros HT HP. exists (cdiv (total p) (per_page p)).
    split; [by apply pages_cdiv|]. apply cdiv_bounds. lia.
Qed.

Lemma iter_pages_window_witness :
  0 <= total (Pagination 10 10 200 (@nil obj)) < 2 ^ 53
  ∧ 0 < per_page (Pagination 10 10 200 (@nil obj)) < 2 ^ 53
  ∧ pages (Pagination 10 10 200 (@nil obj)) = Ok 20
  ∧ ∃ out, iter_pages (Pagination 10 10 200 (@nil obj)) 2 2 5 2 = Ok out
           ∧ (Some 8 ∈ out) ∧ (Some 5 ∉ out).
Proof.
  assert (HT : 0 <= total (Pagination 10 10 200 (@nil obj)) < 2 ^ 53)
    by (simpl; lia).
  assert (HP : 0 < per_page (Pagination 10 10 200 (@nil obj)) < 2 ^ 53)
    by (simpl; lia).
  split; [exact HT|]. split; [exact HP|].
  destruct (iter_pages_window (Pagination 10 10 200 (@nil obj)) 2 2 5 2)
    as (Hwin & _ & Hret).
  destruct (Hret HT HP) as (n & Hn & Hceil).
  simpl in Hceil. assert (n = 20) as -> by lia.
  split; [exact Hn|].
  destruct (Hwin 20 Hn) as (out & Hout & Hin & _).
  exists out. split; [exact Hout|]. split.
  - apply Hin. simpl. lia.
  - intros H5. apply Hin in H5. simpl in H5. lia.
Defined.

(** C5, as stated, fails: with a [per_page] too large for a float
    [iter_pages] raises; page 1 is within the left edge, and is not
    yielded. *)
Lemma iter_pages_beyond_binary64 :
  0 < page (Pagination 1 (2 ^ 1024) 1 (@nil obj))
  ∧ 0 < per_page (Pagination 1 (2 ^ 1024) 1 (@nil obj))
  ∧ 0 <= total (Pagination 1 (2 ^ 1024) 1 (@nil obj))
  ∧ 1 <= 2
  ∧ iter_pages (Pagination 1 (2 ^ 1024) 1 (@nil obj)) 2 2 5 2
    = Raise OverflowError
  ∧ ¬ (∃ out, iter_pages (Pagination 1 (2 ^ 1024) 1 (@nil obj)) 2 2 5 2
              = Ok out
              ∧ Some 1 ∈ out).
Proof.
  assert (H : iter_pages (Pagination 1 (2 ^ 1024) 1 (@nil obj)) 2 2 5 2
              = Raise OverflowError) by (vm_compute; reflexivity).
  split; [done|]. split; [done|]. split; [done|]. split; [done|].
  split; [exact H|]. intros (out & Hout & _). congruence.
Qed.

(** * Further properties of the services *)

(** ** Queries of the directory service *)

Section Queries.
Variable model : string.
Implicit Types (s : store) (kw : kwargs) (o : obj).

Lemma find_run_plain kw s :
  LDAPOMService.find model kw s
  = (Ok (matching model kw s), Store (entries s) (journal s ++ [Search kw])).
Proof. done. Qed.

(** X1: [first] returns the first record of the model, in the order of
    the directory, that matches every criterion; it aborts with 404
    exactly when no record matches; either way it sends one search. *)
Theorem first_returns_first_match kw s :
  let r := LDAPOMService.first (LDAPOMService.service model) kw s in
  (∀ o, r.1 = Ok o ↔ head (matching model kw s) = Some o)
  ∧ (r.1 = Raise HTTPNotFound ↔ matching model kw s = [])
  ∧ (∀ o, r.1 = Ok o →
       ∃ before after,
         entries s = before ++ o :: after
         ∧ cls o = model ∧ matches kw o
         ∧ Forall (λ e, ¬ (cls e = model ∧ matches kw e)) before)
  ∧ r.2 = Store (entries s) (journal s ++ [Search kw]).
Proof.
  intros r. subst r. unfold LDAPOMService.first, mbind, M_bind.
  change (self_find kw s) with (LDAPOMService.find model kw s).
  rewrite find_run_plain.
  destruct (matching model kw s) as [|o l] eqn:Hm; simpl.
  - repeat split; try done.
  - split; [|split; [|split]]; try done.
    + intros o'. split; intros [= ->]; done.
    + intros o' [= <-]. unfold matching in Hm.
      revert Hm. generalize (entries s). intros es.
      induction es as [|e es IH]; [done|].
      rewrite filter_cons. case_decide as He.
      * intros [= -> _]. exists [], es. destruct He. by repeat split.
      * intros Hm. destruct (IH Hm) as (before & after & -> & ? & ? & ?).
        exists (e :: before), after. repeat split; try done.
        by constructor.
Qed.

(** X2: [one] returns a record exactly when it is the only record that
    matches, and raises when none or several match. *)
Theorem one_returns_the_only_match kw s :
  let r := LDAPOMService.one (LDAPOMService.service model) kw s in
  (∀ o, r.1 = Ok o ↔ matching model kw s = [o])
  ∧ (r.1 = Raise Exception ↔ length (matching model kw s) ≠ 1%nat)
  ∧ r.2 = Store (entries s) (journal s ++ [Search kw]).
Proof.
  intros r. subst r. unfold LDAPOMService.one, mbind, M_bind.
  change (self_find kw s) with (LDAPOMService.find model kw s).
  rewrite find_run_plain.
  destruct (matching model kw s) as [|o [|o' l]]; simpl;
    (split; [|split]); try done.
  intros o0. split; intros [= ->]; done.
Qed.

End Queries.

(** ** Lookups in a directory that was written to *)

Section WriteRead.
Variable model : string.
Implicit Types (s : store) (o e : obj) (es : list obj) (i : string).

Lemma lookup_id_cons i e es :
  lookup_id model i (e :: es)
  = if decide (cls e = model ∧ id e = i) then Some e
    else lookup_id model i es.
Proof.
  unfold lookup_id. simpl. case_decide; [done|].
  rewrite <- option_fmap_compose. by apply option_fmap_ext; intros [??].
Qed.

Lemma lookup_id_removed o i es :
  lookup_id model i (filter (λ e, id e ≠ id o) es)
  = if decide (i = id o) then None else lookup_id model i es.
Proof.
  induction es as [|e es IH]; [by case_decide|].
  rewrite filter_cons, (lookup_id_cons i e es).
  destruct (decide (id e ≠ id o)) as [Hne|Heq].
  - rewrite lookup_id_cons, IH.
    repeat case_decide; try done; intuition congruence.
  - rewrite IH. apply dec_stable in Heq.
    repeat case_decide; try done; intuition congruence.
Qed.

Lemma distinct_ids_inj s e o :
  distinct_ids s → e ∈ entries s → o ∈ entries s → id e = id o → e = o.
Proof.
  unfold distinct_ids. intros Hnd He Ho Hid.
  apply list_elem_of_lookup in He as [j Hj].
  apply list_elem_of_lookup in Ho as [k Hk].
  assert (j = k) as ->.
  { apply (NoDup_lookup (id <$> entries s) j k (id o)); [done| |].
    - by rewrite list_lookup_fmap, Hj, <- Hid.
    - by rewrite list_lookup_fmap, Hk. }
  congruence.
Qed.

End WriteRead.

(** ** Parameters and the type check *)

Lemma filter_all {A} (P : A → Prop) `{∀ x, Decision (P x)} (l : list A) :
  Forall P l → filter P l = l.
Proof.
  induction 1 as [|x l Hx _ IH]; [done|].
  by rewrite filter_cons, decide_True, IH.
Qed.

Lemma preprocess_clean_id (c : kwargs) :
  (∀ kv, kv ∈ c → kv.2 ≠ VStr "" ∧ kv.1 ≠ "csrf_token" ∧ kv.1 ≠ "submit") →
  LDAPOMService._preprocess_params c = c.
Proof.
  intros Hc.
  unfold LDAPOMService._preprocess_params, BaseService._preprocess_params,
    dict_pop.
  rewrite (filter_all (λ kv, kv.1 ≠ "csrf_token") c)
    by (apply Forall_forall; intros kv Hkv; by apply Hc).
  rewrite (filter_all (λ kv, kv.1 ≠ "submit") c)
    by (apply Forall_forall; intros kv Hkv; by apply Hc).
  apply filter_all, Forall_forall. intros kv Hkv. by apply Hc.
Qed.

(** X5: what [_preprocess_params] of the directory service keeps is, in
    the order given, every pair whose key is neither [csrf_token] nor
    [submit] and whose value is not ['']; cleaning twice changes nothing
    more. *)
Theorem preprocess_params_clean (kw : kwargs) :
  (∀ k v, (k, v) ∈ LDAPOMService._preprocess_params kw
          ↔ (k, v) ∈ kw ∧ v ≠ VStr "" ∧ k ≠ "csrf_token" ∧ k ≠ "submit")
  ∧ LDAPOMService._preprocess_params kw `sublist_of` kw
  ∧ LDAPOMService._preprocess_params (LDAPOMService._preprocess_params kw)
    = LDAPOMService._preprocess_params kw.
Proof.
  split; [apply preprocess_elem_of|]. split.
  - unfold LDAPOMService._preprocess_params, BaseService._preprocess_params,
      dict_pop.
    repeat (etrans; [apply sublist_filter|]). done.
  - apply preprocess_clean_id. intros [k v] Hkv.
    apply preprocess_elem_of in Hkv. simpl. tauto.
Qed.

Lemma ldap_update_rejects_foreign_witness :
  cls admins ≠ "person"
  ∧ LDAPOMService.update "person" admins [("shell", VStr "/bin/zsh")]
      (people 3)
    = (Raise ValueError, people 3).
Proof.
  assert (H : cls admins ≠ "person") by done.
  split; [exact H|].
  exact (ldap_update_rejects_foreign "person" admins _ (people 3) H).
Defined.


(** X7: every write of [SQLAlchemyService] checks the class first: handed
    a record of another class, [save], [update] and [delete] raise
    [ValueError] and leave the session as it was. *)
Theorem sqlalchemy_writes_check_type model (o : obj) (kw : kwargs)
    (s : store) :
  cls o ≠ model →
  SQLAlchemyService.save model o s = (Raise ValueError, s)
  ∧ SQLAlchemyService.update model o kw s = (Raise ValueError, s)
  ∧ SQLAlchemyService.delete model o s = (Raise ValueError, s).
Proof.
  intros Hne.
  unfold SQLAlchemyService.save, SQLAlchemyService.update,
    SQLAlchemyService.delete, BaseService._isinstance, mbind, M_bind, lift.
  by rewrite bool_decide_false.
Qed.

Lemma sqlalchemy_writes_check_type_witness :
  cls admins ≠ "person"
  ∧ SQLAlchemyService.update "person" admins [("shell", VStr "/bin/zsh")]
      (people 3)
    = (Raise ValueError, people 3).
Proof.
  assert (H : cls admins ≠ "person") by done.
  split; [exact H|].
  exact (proj1 (proj2 (sqlalchemy_writes_check_type "person" admins
                         [("shell", VStr "/bin/zsh")] (people 3) H))).
Defined.



(** ** More of the cached service *)

Section CachedMore.
Variable model : string.
Variable hash : kwargs → Z.
Implicit Types (s : LDAPOMCachedService.t) (l : list obj) (i : string).

Import LDAPOMCachedService.

Lemma populated_after_all l s :
  (LDAPOMCachedService.all model s).1 = Ok l →
  populated l (LDAPOMCachedService.all model s).2.
Proof.
  intros Hl. destruct (all_populates model s) as (l' & Hl' & Hp & _).
  congruence.
Qed.

Lemma populated_super {A} (m : M store A) l s :
  populated l s → populated l (super m s).2.
Proof. intros Hp. unfold super. by destruct (m (ldap s)). Qed.

Lemma super_ldap {A} (m : M store A) s :
  ldap (super m s).2 = (m (ldap s)).2.
Proof. unfold super. by destruct (m (ldap s)). Qed.

(** A miss: nothing cached for [i], and nothing in the directory. *)
Lemma get_miss_step s i :
  _get_cache s !! i = None →
  lookup_id model i (entries (ldap s)) = None →
  LDAPOMCachedService.get model i s
  = (Raise NoResultFound,
     Cached (Store (entries (ldap s)) (journal (ldap s) ++ [Retrieve i]))
       (_all_cache s) (_get_cache s) (_find_cache s)).
Proof. intros Hc Hd. by rewrite get_run_cached, Hc, Hd. Qed.

Lemma get_miss_repeats s i (n : nat) :
  _get_cache s !! i = None →
  lookup_id model i (entries (ldap s)) = None →
  let s' := Nat.iter n (λ s, (LDAPOMCachedService.get model i s).2) s in
  journal (ldap s') = journal (ldap s) ++ replicate n (Retrieve i)
  ∧ (LDAPOMCachedService.get model i s').1 = Raise NoResultFound.
Proof.
  revert s. induction n as [|n IH]; intros s Hc Hd.
  - simpl. rewrite app_nil_r. split; [done|]. by rewrite get_miss_step.
  - rewrite Nat.iter_succ_r. rewrite (get_miss_step s i Hc Hd). simpl.
    destruct (IH (Cached (Store (entries (ldap s))
                            (journal (ldap s) ++ [Retrieve i]))
                    (_all_cache s) (_get_cache s) (_find_cache s)) Hc Hd)
      as [Hj Hr].
    split; [|done]. simpl in Hj. by rewrite Hj, <- app_assoc.
Qed.

End CachedMore.

(** X9: the cached [get] keeps hits only. After a [get] that returned a
    record, the next [get] of that identifier returns it from the cache
    and leaves the state, journal included, as it was. After a [get]
    that raised [NoResultFound], every further [get] of that identifier
    asks the directory again and raises again. *)
Theorem cached_get_keeps_hits_only model (i : string)
    (s : LDAPOMCachedService.t) :
  let r := LDAPOMCachedService.get model i s in
  (∀ o, r.1 = Ok o → LDAPOMCachedService.get model i r.2 = (Ok o, r.2))
  ∧ (r.1 = Raise NoResultFound →
     ∀ n : nat,
       let s' := Nat.iter n (λ s, (LDAPOMCachedService.get model i s).2) r.2 in
       journal (LDAPOMCachedService.ldap s')
       = journal (LDAPOMCachedService.ldap r.2) ++ replicate n (Retrieve i)
       ∧ (LDAPOMCachedService.get model i s').1 = Raise NoResultFound).
Proof.
  intros r. subst r. rewrite (get_run_cached model s i).
  destruct (LDAPOMCachedService._get_cache s !! i) as [o|] eqn:Hc.
  - split; [|done]. intros o' [= <-]. simpl.
    by rewrite get_run_cached, Hc.
  - simpl.
    destruct (lookup_id model i (entries (LDAPOMCachedService.ldap s)))
      as [o|] eqn:Hd; simpl.
    + split; [|done]. intros o' [= <-].
      rewrite get_run_cached. simpl. by rewrite lookup_insert_eq.
    + split; [done|]. intros _ n. by apply get_miss_repeats.
Qed.

(** X10: the cached [find] is keyed by the hash alone: criteria whose
    hash is that of earlier criteria are answered with the result of the
    earlier call, and the directory is not asked. *)
Theorem cached_find_serves_colliding_criteria model hash (kw1 kw2 : kwargs)
    (s : LDAPOMCachedService.t) :
  hash kw1 = hash kw2 →
  let r := LDAPOMCachedService.find model hash kw1 s in
  LDAPOMCachedService.find model hash kw2 r.2 = (r.1, r.2).
Proof.
  intros Hh r. subst r. rewrite (find_run model hash s kw1).
  destruct (LDAPOMCachedService._find_cache s !! hash kw1) as [l|] eqn:Hc;
    simpl.
  - by rewrite find_run, <- Hh, Hc.
  - rewrite find_run. simpl. by rewrite <- Hh, lookup_insert_eq.
Qed.

Lemma cached_find_serves_colliding_criteria_witness :
  positional_hash [("a", VInt 1)] = positional_hash [("b", VInt 1)]
  ∧ (LDAPOMCachedService.find "person" positional_hash [("b", VInt 1)]
       (LDAPOMCachedService.find "person" positional_hash [("a", VInt 1)]
          (LDAPOMCachedService.init
             (Store [Obj "person" "x" {[ "a" := VInt 1 ]}] []))).2).1
    = Ok [Obj "person" "x" {[ "a" := VInt 1 ]}]
  ∧ matching "person" [("b", VInt 1)]
      (Store [Obj "person" "x" {[ "a" := VInt 1 ]}] []) = [].
Proof.
  assert (H : positional_hash [("a", VInt 1)]
              = positional_hash [("b", VInt 1)]) by reflexivity.
  split; [exact H|]. split; [|by vm_compute].
  rewrite (cached_find_serves_colliding_criteria "person" positional_hash
             [("a", VInt 1)] [("b", VInt 1)] _ H).
  by vm_compute.
Defined.

(** X11: writes never refresh the caches. Take a fresh service over a
    directory whose identifiers are distinct, and let [all()] return the
    listing. After a record of the listing is deleted through the service,
    [all()] returns the same listing and the cached [get] still returns the
    record, although the directory has none left for its identifier. After
    a record new to the directory is saved through the service, [all()]
    returns the same listing, without the record, although the directory
    now lists it. *)
Theorem cached_reads_ignore_writes model (c : store) (o n : obj) :
  distinct_ids c →
  o ∈ listing model c →
  cls n = model →
  id n ∉ id <$> entries c →
  let s1 := (LDAPOMCachedService.all model (LDAPOMCachedService.init c)).2 in
  let sd := (LDAPOMCachedService.delete o s1).2 in
  let ss := (LDAPOMCachedService.save n s1).2 in
  (LDAPOMCachedService.all model (LDAPOMCachedService.init c)).1
  = Ok (listing model c)
  ∧ (LDAPOMCachedService.all model sd).1 = Ok (listing model c)
  ∧ (LDAPOMCachedService.get model (id o) sd).1 = Ok o
  ∧ (LDAPOMService.get model (id o) (LDAPOMCachedService.ldap sd)).1
    = Raise NoResultFound
  ∧ (LDAPOMCachedService.all model ss).1 = Ok (listing model c)
  ∧ (n ∉ listing model c)
  ∧ n ∈ listing model (LDAPOMCachedService.ldap ss).
Proof.
  intros Hids Ho Hcls Hnew s1 sd ss.
  assert (Hall : (LDAPOMCachedService.all model
                    (LDAPOMCachedService.init c)).1 = Ok (listing model c))
    by (by rewrite all_run).
  assert (Hent : entries (LDAPOMCachedService.ldap s1) = entries c)
    by (subst s1; by rewrite all_run).
  assert (Hp : populated (listing model c) s1)
    by (by apply populated_after_all).
  split; [done|]. split; [|split; [|split; [|split; [|split]]]].
  - by apply (populated_all model (listing model c)), populated_super.
  - destruct (populated_get model (listing model c) sd (id o))
      as (e & He & Hin & Hid).
    + by apply populated_super.
    + by apply list_elem_of_fmap_2.
    + rewrite He. simpl. f_equal.
      apply list_elem_of_filter in Hin as [_ Hin].
      apply list_elem_of_filter in Ho as [_ Ho].
      by apply (distinct_ids_inj c).
  - subst sd. unfold LDAPOMCachedService.delete.
    rewrite super_ldap, get_run. simpl.
    rewrite lookup_id_removed. by rewrite decide_True.
  - by apply (populated_all model (listing model c)), populated_super.
  - intros Hin. apply list_elem_of_filter in Hin as [_ Hin].
    destruct Hnew. by apply list_elem_of_fmap_2.
  - subst ss. unfold LDAPOMCachedService.save. rewrite super_ldap.
    simpl. unfold listing. apply list_elem_of_filter. split.
    + split; [done|]. by apply Forall_nil.
    + by eapply lookup_id_Some, write_lookup.
Qed.

Lemma cached_reads_ignore_writes_witness :
  distinct_ids (Store [jack; admins] [])
  ∧ jack ∈ listing "person" (Store [jack; admins] [])
  ∧ cls (person 0) = "person"
  ∧ (id (person 0) ∉ id <$> entries (Store [jack; admins] []))
  ∧ (LDAPOMCachedService.get "person" "jack"
       (LDAPOMCachedService.delete jack
          (LDAPOMCachedService.all "person"
             (LDAPOMCachedService.init (Store [jack; admins] []))).2).2).1
    = Ok jack
  ∧ (LDAPOMService.get "person" "jack"
       (LDAPOMCachedService.ldap
          (LDAPOMCachedService.delete jack
             (LDAPOMCachedService.all "person"
                (LDAPOMCachedService.init (Store [jack; admins] []))).2).2)).1
    = Raise NoResultFound.
Proof.
  assert (H1 : distinct_ids (Store [jack; admins] []))
    by (unfold distinct_ids; apply (bool_decide_unpack _); vm_compute;
        exact I).
  assert (H2 : jack ∈ listing "person" (Store [jack; admins] []))
    by (apply (bool_decide_unpack _); vm_compute; exact I).
  assert (H3 : cls (person 0) = "person") by reflexivity.
  assert (H4 : id (person 0) ∉ id <$> entries (Store [jack; admins] []))
    by (apply (bool_decide_unpack _); vm_compute; exact I).
  split; [exact H1|]. split; [exact H2|]. split; [exact H3|].
  split; [exact H4|].
  destruct (cached_reads_ignore_writes "person" _ jack (person 0) H1 H2 H3 H4)
    as (_ & _ & Hget & Hdir & _).
  split; [exact Hget|exact Hdir].
Defined.

(** The state [paginate] leaves is the state [self.all()] leaves. *)
Lemma paginate_state {S} (self : Service S) page per_page order_by desc
    error_out (s : S) :
  (LDAPOMService.paginate self page per_page order_by desc [] error_out s).2
  = (self_all s).2.
Proof.
  unfold LDAPOMService.paginate, mbind, M_bind.
  destruct (self_all s) as [[l|e] s']; [|done]. simpl.
  by destruct (error_out && _).
Qed.

(** X12: on the cached service [paginate] reads the listing through the
    cache: a first call sends at most one search, and no later call,
    whatever its page and page size, reaches the directory; each page
    returned carries the total of the cached listing. *)
Theorem cached_paginate_fetches_once model hash
    (page1 per_page1 page2 per_page2 : Z) (order_by1 order_by2 : option string)
    (desc1 desc2 error_out1 error_out2 : bool) (s : LDAPOMCachedService.t) :
  let self := LDAPOMCachedService.service model hash in
  let s1 := (LDAPOMService.paginate self page1 per_page1 order_by1 desc1 []
               error_out1 s).2 in
  let r2 := LDAPOMService.paginate self page2 per_page2 order_by2 desc2 []
              error_out2 s1 in
  (requests s s1 ≤ 1)%nat
  ∧ LDAPOMCachedService.ldap r2.2 = LDAPOMCachedService.ldap s1
  ∧ ∃ l, (LDAPOMCachedService.all model s).1 = Ok l
         ∧ ∀ p, r2.1 = Ok p →
             total p = len l ∧ items p = page_items l page2 per_page2.
Proof.
  intros self s1 r2. subst s1 r2.
  rewrite !paginate_state.
  change (@self_all _ self) with (LDAPOMCachedService.all model).
  destruct (all_populates model s) as (l & Hl & Hp & Hle).
  split; [done|].
  destruct (populated_all model l _ Hp) as (Hl2 & Hldap & _).
  split; [done|]. exists l. split; [done|].
  intros p. unfold LDAPOMService.paginate, mbind, M_bind.
  change (@self_all _ self) with (LDAPOMCachedService.all model).
  destruct (LDAPOMCachedService.all model
              (LDAPOMCachedService.all model s).2) as [r s2].
  simpl in Hl2. subst r. simpl.
  destruct (error_out2 && _); [done|]. by intros [= <-].
Qed.

(** X13: on the cached service, once [all()] has returned a listing,
    [get_all] of identifiers of that listing is answered from the cache:
    one record of the listing for each identifier, in their order, and
    the state, journal included, is left as it was. *)
Theorem cached_get_all_after_all model hash (ids : list string) (l : list obj)
    (s : LDAPOMCachedService.t) :
  (LDAPOMCachedService.all model s).1 = Ok l →
  Forall (λ i, i ∈ id <$> l) ids →
  let s1 := (LDAPOMCachedService.all model s).2 in
  ∃ rs,
    LDAPOMService.get_all (LDAPOMCachedService.service model hash) ids s1
    = (Ok rs, s1)
    ∧ Forall2 (λ i e, e ∈ l ∧ id e = i) ids rs.
Proof.
  intros Hl Hids s1.
  assert (Hp : populated l s1) by (by apply populated_after_all).
  clearbody s1. clear Hl.
  unfold LDAPOMService.get_all.
  induction Hids as [|i ids Hi _ IH].
  - by exists [].
  - destruct IH as (rs & Hrs & HF).
    destruct (populated_get model l s1 i Hp Hi) as (e & He & Hin & Hid).
    exists (e :: rs). split; [|by constructor].
    cbn [mapM]. unfold mbind at 1, M_bind at 1.
    change (self_get i s1) with (LDAPOMCachedService.get model i s1).
    rewrite He. unfold mbind at 1, M_bind at 1. by rewrite Hrs.
Qed.

Lemma cached_get_all_after_all_witness :
  (LDAPOMCachedService.all "person"
     (LDAPOMCachedService.init (people 3))).1
  = Ok [person 0; person 1; person 2]
  ∧ Forall (λ i, i ∈ id <$> [person 0; person 1; person 2]) ["2"; "0"]
  ∧ (LDAPOMService.get_all
       (LDAPOMCachedService.service "person" positional_hash) ["2"; "0"]
       (LDAPOMCachedService.all "person"
          (LDAPOMCachedService.init (people 3))).2).1
    = Ok [person 2; person 0].
Proof.
  assert (H1 : (LDAPOMCachedService.all "person"
                  (LDAPOMCachedService.init (people 3))).1
               = Ok [person 0; person 1; person 2]) by (by vm_compute).
  assert (H2 : Forall (λ i, i ∈ id <$> [person 0; person 1; person 2])
                 ["2"; "0"]).
  { repeat constructor. }
  split; [exact H1|]. split; [exact H2|].
  destruct (cached_get_all_after_all "person" positional_hash ["2"; "0"] _
              (LDAPOMCachedService.init (people 3)) H1 H2)
    as (rs & Hrun & _).
  rewrite Hrun. simpl. f_equal.
  apply (f_equal fst) in Hrun. vm_compute in Hrun. by injection Hrun as <-.
Defined.

(** ** More of [Pagination] and [paginate] *)

Section PagesMore.
Implicit Types (q : list Z) (out : list (option Z)).

Lemma with_gaps_drop_markers lst q : omap (λ x, x) (with_gaps lst q) = q.
Proof.
  revert lst. induction q as [|k q IH]; intros lst; [done|].
  simpl. destruct (lst + 1 =? k); simpl; by rewrite IH.
Qed.

Lemma range_from_sorted lo (a k : nat) :
  StronglySorted Z.lt (map (λ i, lo + Z.of_nat i) (seq a k)).
Proof.
  revert a. induction k as [|k IH]; intros a; simpl; constructor; [done|].
  apply Forall_forall. intros x Hx.
  apply list_elem_of_fmap in Hx as (i & -> & Hi).
  apply elem_of_seq in Hi. lia.
Qed.

Lemma filter_sorted {A} (R : relation A) (P : A → Prop)
    `{∀ x, Decision (P x)} (l : list A) :
  StronglySorted R l → StronglySorted R (filter P l).
Proof.
  induction 1 as [|x l _ IH Hx]; [constructor|].
  rewrite filter_cons. case_decide; [|done].
  constructor; [done|].
  apply Forall_forall. intros y Hy. apply list_elem_of_filter in Hy as [_ Hy].
  by eapply Forall_forall in Hx.
Qed.

Lemma with_gaps_consecutive (a : Z) (st k : nat) :
  with_gaps (a + Z.of_nat st - 1) (map (λ i, a + Z.of_nat i) (seq st k))
  = Some <$> map (λ i, a + Z.of_nat i) (seq st k).
Proof.
  revert st. induction k as [|k IH]; intros st; [done|].
  simpl. replace (a + Z.of_nat st - 1 + 1 =? a + Z.of_nat st) with true
    by (symmetry; lia).
  simpl. f_equal. rewrite <- IH. f_equal. lia.
Qed.

End PagesMore.

(** X14: [iter_pages] yields the page numbers in increasing order: of two
    numbers it yields, the later one is the larger, so that none comes
    twice. *)
Theorem iter_pages_increasing {A} (p : Pagination.t A)
    (left_edge left_current right_current right_edge n : Z)
    (out pre mid post : list (option Z)) (a b : Z) :
  pages p = Ok n →
  iter_pages p left_edge left_current right_current right_edge = Ok out →
  out = pre ++ Some a :: mid ++ Some b :: post →
  a < b.
Proof.
  intros Hn. unfold iter_pages. rewrite Hn. simpl. intros [= <-] Hout.
  rewrite iter_loop_with_gaps in Hout.
  apply (f_equal (omap (λ x, x))) in Hout.
  rewrite with_gaps_drop_markers in Hout.
  rewrite omap_app in Hout. simpl in Hout. rewrite omap_app in Hout.
  simpl in Hout.
  assert (Hs : StronglySorted Z.lt
                 (filter (λ k, shown (page p) n left_edge left_current
                                 right_current right_edge k = true)
                    (range 1 (n + 1))))
    by apply filter_sorted, range_from_sorted.
  rewrite Hout in Hs.
  apply StronglySorted_app_1_r in Hs.
  apply StronglySorted_inv in Hs as [_ Hs].
  rewrite Forall_forall in Hs. apply Hs.
  apply elem_of_app. right. by left.
Qed.

Lemma iter_pages_increasing_witness :
  pages (Pagination 10 10 200 (@nil obj)) = Ok 20
  ∧ iter_pages (Pagination 10 10 200 (@nil obj)) 2 2 5 2
    = Ok ([Some 1] ++ Some 2 :: [None; Some 8; Some 9] ++ Some 10
            :: [Some 11; Some 12; Some 13; Some 14; None; Some 19; Some 20])
  ∧ 2 < 10.
Proof.
  assert (H1 : pages (Pagination 10 10 200 (@nil obj)) = Ok 20)
    by (vm_compute; reflexivity).
  assert (H2 : iter_pages (Pagination 10 10 200 (@nil obj)) 2 2 5 2
               = Ok ([Some 1] ++ Some 2 :: [None; Some 8; Some 9] ++ Some 10
                       :: [Some 11; Some 12; Some 13; Some 14; None;
                           Some 19; Some 20]))
    by (vm_compute; reflexivity).
  split; [exact H1|]. split; [exact H2|].
  exact (iter_pages_increasing _ 2 2 5 2 20 _ [Some 1]
           [None; Some 8; Some 9]
           [Some 11; Some 12; Some 13; Some 14; None; Some 19; Some 20]
           2 10 H1 H2 eq_refl).
Defined.

(** X15: when the two edges together cover all the pages
    ([pages <= left_edge + right_edge]), [iter_pages] yields [1..pages]
    and no gap marker. *)
Theorem iter_pages_no_gap_when_edges_cover {A} (p : Pagination.t A)
    (left_edge left_current right_current right_edge n : Z) :
  pages p = Ok n →
  n <= left_edge + right_edge →
  iter_pages p left_edge left_current right_current right_edge
  = Ok (Some <$> range 1 (n + 1)).
Proof.
  intros Hn Hcover. unfold iter_pages. rewrite Hn. simpl. f_equal.
  rewrite iter_loop_with_gaps, filter_all.
  - unfold range. apply (with_gaps_consecutive 1 0).
  - apply Forall_forall. intros k Hk. apply elem_of_range in Hk.
    apply shown_iff. lia.
Qed.

Lemma iter_pages_no_gap_when_edges_cover_witness :
  pages (Pagination 1 10 35 (@nil obj)) = Ok 4
  ∧ 4 <= 2 + 2
  ∧ iter_pages (Pagination 1 10 35 (@nil obj)) 2 2 5 2
    = Ok [Some 1; Some 2; Some 3; Some 4].
Proof.
  assert (H1 : pages (Pagination 1 10 35 (@nil obj)) = Ok 4)
    by (vm_compute; reflexivity).
  assert (H2 : 4 <= 2 + 2) by lia.
  split; [exact H1|]. split; [exact H2|].
  exact (iter_pages_no_gap_when_edges_cover _ 2 2 5 2 4 H1 H2).
Defined.

Lemma page_items_nonempty {A} (l : list A) (page per_page : Z) :
  1 <= page → 0 < per_page →
  page_items l page per_page ≠ [] ↔ (page - 1) * per_page < len l.
Proof.
  intros Hp Hpp. unfold page_items, len.
  rewrite py_slice_nonneg by nia.
  set (lo := Z.to_nat ((page - 1) * per_page)).
  set (hi := Z.to_nat (page * per_page)).
  assert (lo < hi)%nat by (subst lo hi; nia).
  replace ((page - 1) * per_page) with (Z.of_nat lo) by (subst lo; nia).
  split.
  - intros Hne. destruct (decide (lo < length l)%nat); [lia|].
    destruct Hne. rewrite drop_ge by lia. apply take_nil.
  - intros Hlt Hnil. apply (f_equal length) in Hnil.
    rewrite length_take, length_drop in Hnil. simpl in Hnil. lia.
Qed.

(** X16: for a page that [paginate] returns without [error_out], within
    the integers binary64 holds exactly, [pages] is the number of the
    last page that has items: the page has items exactly when its number
    is at most [pages], and [has_next] holds exactly when the next page
    has items. *)
Theorem pages_counts_pages_with_items model (s : store) (page per_page : Z)
    (order_by : option string) (desc : bool) :
  1 <= page → 0 < per_page < 2 ^ 53 → len (listing model s) < 2 ^ 53 →
  ∃ p n,
    (LDAPOMService.paginate (LDAPOMService.service model) page per_page
       order_by desc [] false s).1 = Ok p
    ∧ pages p = Ok n
    ∧ (items p ≠ [] ↔ page <= n)
    ∧ (has_next p = Ok true
       ↔ page_items (listing model s) (page + 1) per_page ≠ []).
Proof.
  intros Hp Hpp Hlen. rewrite paginate_no_error_out.
  set (p := Pagination page per_page (len (listing model s))
              (page_items (listing model s) page per_page)).
  assert (HT : 0 <= total p < 2 ^ 53) by (simpl; unfold len in *; lia).
  pose proof (pages_cdiv p HT Hpp) as Hpages.
  pose proof (cdiv_bounds (total p) (Pagination.per_page p)
                ltac:(simpl; lia)) as Hn.
  set (n := cdiv (total p) (Pagination.per_page p)) in *. simpl in Hn.
  exists p, n. split; [done|]. split; [done|]. split.
  - simpl. rewrite page_items_nonempty by lia. nia.
  - unfold has_next. rewrite Hpages. simpl.
    rewrite page_items_nonempty by lia.
    replace (page + 1 - 1) with page by lia.
    destruct (Z.ltb_spec page n); split; try done; intros; nia.
Qed.

Lemma pages_counts_pages_with_items_witness :
  1 <= 3 ∧ 0 < 10 < 2 ^ 53 ∧ len (listing "person" (people 23)) < 2 ^ 53
  ∧ ∃ p, (LDAPOMService.paginate (LDAPOMService.service "person") 3 10 None
            false [] false (people 23)).1 = Ok p
         ∧ pages p = Ok 3 ∧ items p ≠ [] ∧ has_next p = Ok false.
Proof.
  assert (H1 : 1 <= 3) by lia.
  assert (H2 : 0 < 10 < 2 ^ 53) by lia.
  assert (H3 : len (listing "person" (people 23)) < 2 ^ 53)
    by (vm_compute; reflexivity).
  split; [exact H1|]. split; [exact H2|]. split; [exact H3|].
  destruct (pages_counts_pages_with_items "person" (people 23) 3 10 None
              false H1 H2 H3) as (p & n & Hp & Hn & Hitems & Hnext).
  exists p. split; [exact Hp|].
  rewrite paginate_no_error_out in Hp. injection Hp as <-.
  assert (n = 3) by (vm_compute in Hn; by injection Hn).
  subst n. split; [exact Hn|]. split.
  - apply Hitems. lia.
  - by vm_compute.
Defined.

(** X20: with [error_out] on and a positive [per_page], a page that
    [paginate] returns never has items: the call aborts whenever the
    slice would not be empty. *)
Theorem paginate_error_out_returns_no_items model (s : store)
    (page per_page : Z) (order_by : option string) (desc : bool)
    (p : Pagination.t obj) :
  0 < per_page →
  (LDAPOMService.paginate (LDAPOMService.service model) page per_page
     order_by desc [] true s).1 = Ok p →
  items p = [] ∧ total p = len (listing model s).
Proof.
  intros Hpp. rewrite paginate_unfiltered. simpl.
  destruct (Z.ltb_spec ((page - 1) * per_page) (len (listing model s)))
    as [Hlt|Hge]; [done|].
  simpl. intros [= <-]. simpl. split; [|done].
  assert (1 <= page) by (unfold len in Hge; nia).
  apply page_items_beyond; lia.
Qed.

Lemma paginate_error_out_returns_no_items_witness :
  0 < 10
  ∧ (LDAPOMService.paginate (LDAPOMService.service "person") 5 10 None false
       [] true (people 23)).1 = Ok (Pagination 5 10 23 [])
  ∧ items (Pagination 5 10 23 (@nil obj)) = [].
Proof.
  assert (H1 : 0 < 10) by lia.
  assert (H2 : (LDAPOMService.paginate (LDAPOMService.service "person") 5 10
                  None false [] true (people 23)).1
               = Ok (Pagination 5 10 23 [])) by (vm_compute; reflexivity).
  split; [exact H1|]. split; [exact H2|].
  exact (proj1 (paginate_error_out_returns_no_items "person" (people 23) 5 10
                  None false _ H1 H2)).
Defined.

(** ** The distinguished name of a new record *)

Lemma string_length_app (s1 s2 : string) :
  String.length (s1 +:+ s2) = (String.length s1 + String.length s2)%nat.
Proof. induction s1 as [|a s1 IH]; simpl; [done|]. by rewrite IH. Qed.

Lemma string_app_inv_tail (s1 s2 t : string) :
  s1 +:+ t = s2 +:+ t → s1 = s2.
Proof.
  revert s2. induction s1 as [|a s1 IH]; intros [|b s2] H; simpl in H.
  - done.
  - apply (f_equal String.length) in H. simpl in H.
    rewrite !string_length_app in H. simpl in H. lia.
  - apply (f_equal String.length) in H. simpl in H.
    rewrite !string_length_app in H. simpl in H. lia.
  - injection H as -> H. f_equal. by apply IH.
Qed.

Lemma compute_dn_of (rdn base : string) (kw : kwargs) (v : value) :
  NoDup kw.*1 → (rdn, v) ∈ kw →
  LDAPOMService._compute_dn rdn base kw
  = Some (rdn +:+ "=" +:+ str v +:+ "," +:+ base).
Proof.
  intros Hnd Hin. unfold LDAPOMService._compute_dn.
  destruct (list_find_elem_of (λ kv : string * value, kv.1 = rdn) kw
              (rdn, v) Hin eq_refl) as [[n [k v']] Hf].
  rewrite Hf. simpl.
  apply list_find_Some in Hf as (Hn & Hk & _). simpl in Hk. subst k.
  apply list_elem_of_lookup_2 in Hn.
  by rewrite (kwargs_functional kw rdn v v' Hnd Hin Hn).
Qed.

(** X19: [_compute_dn] fails with [KeyError] exactly when the naming
    attribute is not among the parameters; otherwise the name is
    [<rdn>=<value>,<base>], and with the same naming attribute and base
    two parameter sets get the same name only if their naming values
    print alike. *)
Theorem compute_dn_names_by_value (rdn base : string) (kw1 kw2 : kwargs)
    (v1 v2 : value) :
  NoDup kw1.*1 → NoDup kw2.*1 → (rdn, v1) ∈ kw1 → (rdn, v2) ∈ kw2 →
  LDAPOMService._compute_dn rdn base kw1
  = Some (rdn +:+ "=" +:+ str v1 +:+ "," +:+ base)
  ∧ (LDAPOMService._compute_dn rdn base kw1
     = LDAPOMService._compute_dn rdn base kw2 → str v1 = str v2)
  ∧ ∀ kw, LDAPOMService._compute_dn rdn base kw = None ↔ rdn ∉ kw.*1.
Proof.
  intros Hnd1 Hnd2 Hin1 Hin2.
  rewrite (compute_dn_of rdn base kw1 v1), (compute_dn_of rdn base kw2 v2)
    by done.
  split; [done|]. split.
  - intros [= H]. apply (inj (String.append rdn)) in H.
    apply (inj (String.append "=")) in H.
    by apply string_app_inv_tail in H.
  - intros kw. unfold LDAPOMService._compute_dn. split.
    + intros Hnone Hin.
      apply list_elem_of_fmap in Hin as ([k v] & Hk & Hin).
      simpl in Hk. subst k.
      destruct (list_find_elem_of (λ kv : string * value, kv.1 = rdn) kw
                  (rdn, v) Hin eq_refl) as [x Hx].
      by rewrite Hx in Hnone.
    + intros Hnot.
      destruct (list_find (λ kv : string * value, kv.1 = rdn) kw)
        as [[n [k v]]|] eqn:Hf; [|done].
      apply list_find_Some in Hf as (Hn & Hk & _). simpl in Hk. subst k.
      destruct Hnot. apply list_elem_of_lookup_2 in Hn.
      by apply (list_elem_of_fmap_2 fst _ (rdn, v)).
Qed.

Lemma compute_dn_names_by_value_witness :
  NoDup [("cn", VStr "george"); ("lastname", VStr "Hammond")].*1
  ∧ NoDup [("cn", VStr "sam")].*1
  ∧ ("cn", VStr "george")
    ∈ [("cn", VStr "george"); ("lastname", VStr "Hammond")]
  ∧ ("cn", VStr "sam") ∈ [("cn", VStr "sam")]
  ∧ LDAPOMService._compute_dn "cn" "dc=example,dc=com"
      [("cn", VStr "george"); ("lastname", VStr "Hammond")]
    = Some "cn=george,dc=example,dc=com".
Proof.
  assert (H1 : NoDup [("cn", VStr "george");
                      ("lastname", VStr "Hammond")].*1).
  { simpl. repeat (constructor; [rewrite ?not_elem_of_cons;
      repeat split; try done; apply not_elem_of_nil|]). constructor. }
  assert (H2 : NoDup [("cn", VStr "sam")].*1).
  { simpl. repeat (constructor; [apply not_elem_of_nil|]). constructor. }
  assert (H3 : ("cn", VStr "george")
               ∈ [("cn", VStr "george"); ("lastname", VStr "Hammond")])
    by (by left).
  assert (H4 : ("cn", VStr "sam") ∈ [("cn", VStr "sam")]) by (by left).
  split; [exact H1|]. split; [exact H2|]. split; [exact H3|].
  split; [exact H4|].
  exact (proj1 (compute_dn_names_by_value "cn" "dc=example,dc=com" _ _ _ _
                  H1 H2 H3 H4)).
Defined.
